(** * Shallow embedding of [poset.InmemStore] (src/poset/inmem_store.go)

    The in-memory consensus store of the poset package, modelled as a
    record of its fields with each method a function on that record
    (explicit state passing).  Locks are not modelled: every method is
    one atomic step.  The repertoire mirrors are not modelled either: no
    method used below reads them. *)

From Stdlib Require Import ZArith Lia.
From stdpp Require Import base gmap strings list fin_maps.

Open Scope Z_scope.

(** ** Basic types *)

(** [EventHash]: a fixed-width identifier, represented by its value. *)
Abbreviation EventHash := Z.

(** The error kinds of [cm.StoreErr]. *)
Inductive StoreErrType :=
| KeyNotFound
| NoRoot
| Empty
| TooLow
| SkippedIndex.

#[global] Instance StoreErrType_eq_dec : EqDecision StoreErrType.
Proof. solve_decision. Defined.

(** A Go [error]: [None] is [nil]. *)
Abbreviation error := (option StoreErrType).

(** The accessors the store uses on an [Event]: [Hash()], [GetCreator()],
    [Index()]; the payload is opaque to the store. *)
Record Event := mkEvent {
  ev_hash : EventHash;
  ev_creator : string;
  ev_index : Z;
  ev_payload : list Z
}.

(** [Root.SelfParent]: hash and index of the self-parent. *)
Record RootEvent := mkRootEvent { sp_hash : EventHash; sp_index : Z }.
Record Root := mkRoot { SelfParent : RootEvent }.

(** [RoundCreated]: its [Clotho()] set and [Message.Events]. *)
Record RoundCreated := mkRoundCreated {
  rc_clotho : list EventHash;
  rc_events : list EventHash
}.

Definition NewRoundCreated : RoundCreated := mkRoundCreated [] [].

Record RoundReceived := mkRoundReceived { rr_rounds : list Z }.

Record Block := mkBlock { block_index : Z; block_body : list Z }.

Record Frame := mkFrame { frame_round : Z; frame_roots : list Z }.

(** [int64] arithmetic: the result of [x + y] on int64 wraps modulo 2^64
    into [-2^63, 2^63). *)
Definition int64_max : Z := 2 ^ 63 - 1.
Definition int64_min : Z := - 2 ^ 63.
Definition wrap64 (z : Z) : Z := (z + 2 ^ 63) mod 2 ^ 64 - 2 ^ 63.

(** ** [github.com/hashicorp/golang-lru]: a bounded LRU cache.

    Entries are kept most recently used first.  [Get] moves a hit to the
    front; [Add] overwrites and moves an existing key to the front, or
    pushes a new key at the front and evicts the oldest entry when the
    size exceeds the capacity.  [New(size)] fails for [size <= 0]. *)
Module LRU.
Section LRU.
Context {K V : Type} `{EqDecision K}.

Record cache := mkCache { cap : Z; items : list (K * V) }.

Definition New (size : Z) : option cache :=
  if decide (size <= 0) then None else Some (mkCache size []).

Fixpoint find (k : K) (l : list (K * V)) : option V :=
  match l with
  | [] => None
  | (k', v) :: l' => if decide (k = k') then Some v else find k l'
  end.

Definition remove (k : K) (l : list (K * V)) : list (K * V) :=
  filter (fun kv => k <> kv.1) l.

Definition Get (k : K) (c : cache) : option V * cache :=
  match find k (items c) with
  | Some v => (Some v, mkCache (cap c) ((k, v) :: remove k (items c)))
  | None => (None, c)
  end.

Definition Add (k : K) (v : V) (c : cache) : cache :=
  match find k (items c) with
  | Some _ => mkCache (cap c) ((k, v) :: remove k (items c))
  | None =>
      let l := (k, v) :: items c in
      if decide (Z.of_nat (length l) > cap c)
      then mkCache (cap c) (take (pred (length l)) l)
      else mkCache (cap c) l
  end.
End LRU.
Arguments cache : clear implicits.
End LRU.

(** ** [cm.RollingIndex], the rolling consensus index (the [common]
    package is not under src/; spec section 4.4). *)
Module RollingIndex.
Record t := mk { size : Z; count : Z; window : list EventHash }.

(** Modelled from the spec: [cm.NewRollingIndex], an empty index whose
    total count is 0. *)
Definition New (sz : Z) : t := mk sz 0 [].

Definition lastn (n : Z) (l : list EventHash) : list EventHash :=
  drop (length l - Z.to_nat n) l.

(** Modelled from the spec: [RollingIndex.Set(item, position)], a bounded
    FIFO addressed by a dense position.  It must be called with
    [position = totalCount]; it then appends the item, keeps the last
    [size] items and advances the count.  Any other position is refused
    with [SkippedIndex] (ahead of the count) or [TooLow] (behind it),
    leaving the index unchanged. *)
Definition Set_ (item : EventHash) (pos : Z) (r : t) : t * error :=
  if decide (pos = count r)
  then (mk (size r) (count r + 1) (lastn (size r) (window r ++ [item])), None)
  else if decide (pos > count r) then (r, Some SkippedIndex)
  else (r, Some TooLow).

(** Modelled from the spec: [RollingIndex.GetLastWindow], the retained
    suffix in order. *)
Definition GetLastWindow (r : t) : list EventHash * error := (window r, None).
End RollingIndex.

(** ** [ParticipantEventsCache] (participant_events_cache.go is not under
    src/; spec section 4.3).  One rolling window per participant public
    key, with the highest index ever assigned. *)
Module PEC.
Record entry := mkEntry {
  pe_window : list (Z * EventHash);  (* (index, hash), ascending *)
  pe_known : Z                       (* highest index assigned, or -1 *)
}.

Definition fresh_entry : entry := mkEntry [] (-1).

Record t := mk { size : Z; entries : gmap string entry }.

(** Modelled from the spec: [NewParticipantEventsCache(size,
    participants)], an empty window for every participant. *)
Definition New (sz : Z) (participants : list (string * Z)) : t :=
  mk sz (list_to_map ((fun '(pk, _) => (pk, fresh_entry)) <$> participants)).

(** Modelled from the spec: [Set(p, hash, i)].  [i] must be the next
    expected index of [p] ([TooLow] below it, [SkippedIndex] above it);
    the window drops its oldest entry when full.  An unknown participant
    is refused with [KeyNotFound]. *)
Definition Set_ (p : string) (h : EventHash) (i : Z) (c : t) : t * error :=
  match entries c !! p with
  | None => (c, Some KeyNotFound)
  | Some en =>
      if decide (i = pe_known en + 1) then
        let w := pe_window en ++ [(i, h)] in
        let w' := if decide (Z.of_nat (length w) > size c) then tail w else w in
        (mk (size c) (<[p := mkEntry w' i]> (entries c)), None)
      else if decide (i <= pe_known en) then (c, Some TooLow)
      else (c, Some SkippedIndex)
  end.

(** Modelled from the spec: [Get(p, skip)], the retained hashes of [p]
    with index greater than [skip]. *)
Definition Get (p : string) (skip : Z) (c : t) : list EventHash * error :=
  match entries c !! p with
  | None => ([], Some KeyNotFound)
  | Some en => (snd <$> filter (fun ih => skip < ih.1) (pe_window en), None)
  end.

Fixpoint find_index (i : Z) (w : list (Z * EventHash)) : option EventHash :=
  match w with
  | [] => None
  | (j, h) :: w' => if decide (i = j) then Some h else find_index i w'
  end.

(** Modelled from the spec: [GetItem(p, i)], exact lookup in the window;
    outside it [TooLow] (below the window) or [KeyNotFound].  The hash
    returned with an error is the zero hash. *)
Definition GetItem (p : string) (i : Z) (c : t) : EventHash * error :=
  match entries c !! p with
  | None => (0, Some KeyNotFound)
  | Some en =>
      match find_index i (pe_window en) with
      | Some h => (h, None)
      | None =>
          match pe_window en with
          | (lo, _) :: _ => if decide (i < lo) then (0, Some TooLow)
                            else (0, Some KeyNotFound)
          | [] => (0, Some KeyNotFound)
          end
      end
  end.

(** Modelled from the spec: [GetLast(p)], the highest retained entry, or
    [Empty] when none exists. *)
Definition GetLast (p : string) (c : t) : EventHash * error :=
  match entries c !! p with
  | Some en =>
      match last (pe_window en) with
      | Some (_, h) => (h, None)
      | None => (0, Some Empty)
      end
  | None => (0, Some Empty)
  end.

(** Modelled from the spec: [Known()], participant id to the highest
    index ever assigned, or -1. *)
Definition Known (participants : list (string * Z)) (c : t) : gmap Z Z :=
  list_to_map ((fun '(pk, id) =>
    (id, match entries c !! pk with Some en => pe_known en | None => -1 end))
    <$> participants).

(** Modelled from the spec: [Import(other)], the windows of [other] are
    copied over. *)
Definition Import (old : t) (c : t) : t := mk (size c) (entries old ∪ entries c).

(** Modelled from the spec: [Reset()], all windows are cleared. *)
Definition Reset (c : t) : t * error :=
  (mk (size c) ((fun en => mkEntry [] (pe_known en)) <$> entries c), None).
End PEC.

(** ** The store record [InmemStore].

    [participants] is the shared [*peers.Peers] object, as the list of its
    [ByPubKey] entries (public key, id); the order of the list is the
    (unspecified) order in which Go iterates over the map.
    [rootsBySelfParent = None] is the [nil] map. *)
Record InmemStore := mkInmemStore {
  cacheSize : Z;
  participants : list (string * Z);
  eventCache : LRU.cache EventHash Event;
  roundCreatedCache : LRU.cache Z RoundCreated;
  roundReceivedCache : LRU.cache Z RoundReceived;
  blockCache : LRU.cache Z Block;
  frameCache : LRU.cache Z Frame;
  consensusCache : RollingIndex.t;
  totConsensusEvents : Z;
  participantEventsCache : PEC.t;
  rootsByParticipant : gmap string Root;
  rootsBySelfParent : option (gmap EventHash Root);
  lastRound : Z;
  lastConsensusEvents : gmap string EventHash;
  lastBlock : Z
}.

(** Field assignments [s.f = v]. *)
Definition set_participants (v : list (string * Z)) (s : InmemStore) : InmemStore :=
  {| cacheSize := cacheSize s; participants := v; eventCache := eventCache s;
     roundCreatedCache := roundCreatedCache s; roundReceivedCache := roundReceivedCache s; blockCache := blockCache s;
     frameCache := frameCache s; consensusCache := consensusCache s; totConsensusEvents := totConsensusEvents s;
     participantEventsCache := participantEventsCache s; rootsByParticipant := rootsByParticipant s; rootsBySelfParent := rootsBySelfParent s;
     lastRound := lastRound s; lastConsensusEvents := lastConsensusEvents s; lastBlock := lastBlock s |}.

Definition set_eventCache (v : LRU.cache EventHash Event) (s : InmemStore) : InmemStore :=
  {| cacheSize := cacheSize s; participants := participants s; eventCache := v;
     roundCreatedCache := roundCreatedCache s; roundReceivedCache := roundReceivedCache s; blockCache := blockCache s;
     frameCache := frameCache s; consensusCache := consensusCache s; totConsensusEvents := totConsensusEvents s;
     participantEventsCache := participantEventsCache s; rootsByParticipant := rootsByParticipant s; rootsBySelfParent := rootsBySelfParent s;
     lastRound := lastRound s; lastConsensusEvents := lastConsensusEvents s; lastBlock := lastBlock s |}.

Definition set_roundCreatedCache (v : LRU.cache Z RoundCreated) (s : InmemStore) : InmemStore :=
  {| cacheSize := cacheSize s; participants := participants s; eventCache := eventCache s;
     roundCreatedCache := v; roundReceivedCache := roundReceivedCache s; blockCache := blockCache s;
     frameCache := frameCache s; consensusCache := consensusCache s; totConsensusEvents := totConsensusEvents s;
     participantEventsCache := participantEventsCache s; rootsByParticipant := rootsByParticipant s; rootsBySelfParent := rootsBySelfParent s;
     lastRound := lastRound s; lastConsensusEvents := lastConsensusEvents s; lastBlock := lastBlock s |}.

Definition set_roundReceivedCache (v : LRU.cache Z RoundReceived) (s : InmemStore) : InmemStore :=
  {| cacheSize := cacheSize s; participants := participants s; eventCache := eventCache s;
     roundCreatedCache := roundCreatedCache s; roundReceivedCache := v; blockCache := blockCache s;
     frameCache := frameCache s; consensusCache := consensusCache s; totConsensusEvents := totConsensusEvents s;
     participantEventsCache := participantEventsCache s; rootsByParticipant := rootsByParticipant s; rootsBySelfParent := rootsBySelfParent s;
     lastRound := lastRound s; lastConsensusEvents := lastConsensusEvents s; lastBlock := lastBlock s |}.

Definition set_blockCache (v : LRU.cache Z Block) (s : InmemStore) : InmemStore :=
  {| cacheSize := cacheSize s; participants := participants s; eventCache := eventCache s;
     roundCreatedCache := roundCreatedCache s; roundReceivedCache := roundReceivedCache s; blockCache := v;
     frameCache := frameCache s; consensusCache := consensusCache s; totConsensusEvents := totConsensusEvents s;
     participantEventsCache := participantEventsCache s; rootsByParticipant := rootsByParticipant s; rootsBySelfParent := rootsBySelfParent s;
     lastRound := lastRound s; lastConsensusEvents := lastConsensusEvents s; lastBlock := lastBlock s |}.

Definition set_frameCache (v : LRU.cache Z Frame) (s : InmemStore) : InmemStore :=
  {| cacheSize := cacheSize s; participants := participants s; eventCache := eventCache s;
     roundCreatedCache := roundCreatedCache s; roundReceivedCache := roundReceivedCache s; blockCache := blockCache s;
     frameCache := v; consensusCache := consensusCache s; totConsensusEvents := totConsensusEvents s;
     participantEventsCache := participantEventsCache s; rootsByParticipant := rootsByParticipant s; rootsBySelfParent := rootsBySelfParent s;
     lastRound := lastRound s; lastConsensusEvents := lastConsensusEvents s; lastBlock := lastBlock s |}.

Definition set_consensusCache (v : RollingIndex.t) (s : InmemStore) : InmemStore :=
  {| cacheSize := cacheSize s; participants := participants s; eventCache := eventCache s;
     roundCreatedCache := roundCreatedCache s; roundReceivedCache := roundReceivedCache s; blockCache := blockCache s;
     frameCache := frameCache s; consensusCache := v; totConsensusEvents := totConsensusEvents s;
     participantEventsCache := participantEventsCache s; rootsByParticipant := rootsByParticipant s; rootsBySelfParent := rootsBySelfParent s;
     lastRound := lastRound s; lastConsensusEvents := lastConsensusEvents s; lastBlock := lastBlock s |}.

Definition set_totConsensusEvents (v : Z) (s : InmemStore) : InmemStore :=
  {| cacheSize := cacheSize s; participants := participants s; eventCache := eventCache s;
     roundCreatedCache := roundCreatedCache s; roundReceivedCache := roundReceivedCache s; blockCache := blockCache s;
     frameCache := frameCache s; consensusCache := consensusCache s; totConsensusEvents := v;
     participantEventsCache := participantEventsCache s; rootsByParticipant := rootsByParticipant s; rootsBySelfParent := rootsBySelfParent s;
     lastRound := lastRound s; lastConsensusEvents := lastConsensusEvents s; lastBlock := lastBlock s |}.

Definition set_participantEventsCache (v : PEC.t) (s : InmemStore) : InmemStore :=
  {| cacheSize := cacheSize s; participants := participants s; eventCache := eventCache s;
     roundCreatedCache := roundCreatedCache s; roundReceivedCache := roundReceivedCache s; blockCache := blockCache s;
     frameCache := frameCache s; consensusCache := consensusCache s; totConsensusEvents := totConsensusEvents s;
     participantEventsCache := v; rootsByParticipant := rootsByParticipant s; rootsBySelfParent := rootsBySelfParent s;
     lastRound := lastRound s; lastConsensusEvents := lastConsensusEvents s; lastBlock := lastBlock s |}.

Definition set_rootsByParticipant (v : gmap string Root) (s : InmemStore) : InmemStore :=
  {| cacheSize := cacheSize s; participants := participants s; eventCache := eventCache s;
     roundCreatedCache := roundCreatedCache s; roundReceivedCache := roundReceivedCache s; blockCache := blockCache s;
     frameCache := frameCache s; consensusCache := consensusCache s; totConsensusEvents := totConsensusEvents s;
     participantEventsCache := participantEventsCache s; rootsByParticipant := v; rootsBySelfParent := rootsBySelfParent s;
     lastRound := lastRound s; lastConsensusEvents := lastConsensusEvents s; lastBlock := lastBlock s |}.

Definition set_rootsBySelfParent (v : option (gmap EventHash Root)) (s : InmemStore) : InmemStore :=
  {| cacheSize := cacheSize s; participants := participants s; eventCache := eventCache s;
     roundCreatedCache := roundCreatedCache s; roundReceivedCache := roundReceivedCache s; blockCache := blockCache s;
     frameCache := frameCache s; consensusCache := consensusCache s; totConsensusEvents := totConsensusEvents s;
     participantEventsCache := participantEventsCache s; rootsByParticipant := rootsByParticipant s; rootsBySelfParent := v;
     lastRound := lastRound s; lastConsensusEvents := lastConsensusEvents s; lastBlock := lastBlock s |}.

Definition set_lastRound (v : Z) (s : InmemStore) : InmemStore :=
  {| cacheSize := cacheSize s; participants := participants s; eventCache := eventCache s;
     roundCreatedCache := roundCreatedCache s; roundReceivedCache := roundReceivedCache s; blockCache := blockCache s;
     frameCache := frameCache s; consensusCache := consensusCache s; totConsensusEvents := totConsensusEvents s;
     participantEventsCache := participantEventsCache s; rootsByParticipant := rootsByParticipant s; rootsBySelfParent := rootsBySelfParent s;
     lastRound := v; lastConsensusEvents := lastConsensusEvents s; lastBlock := lastBlock s |}.

Definition set_lastConsensusEvents (v : gmap string EventHash) (s : InmemStore) : InmemStore :=
  {| cacheSize := cacheSize s; participants := participants s; eventCache := eventCache s;
     roundCreatedCache := roundCreatedCache s; roundReceivedCache := roundReceivedCache s; blockCache := blockCache s;
     frameCache := frameCache s; consensusCache := consensusCache s; totConsensusEvents := totConsensusEvents s;
     participantEventsCache := participantEventsCache s; rootsByParticipant := rootsByParticipant s; rootsBySelfParent := rootsBySelfParent s;
     lastRound := lastRound s; lastConsensusEvents := v; lastBlock := lastBlock s |}.

Definition set_lastBlock (v : Z) (s : InmemStore) : InmemStore :=
  {| cacheSize := cacheSize s; participants := participants s; eventCache := eventCache s;
     roundCreatedCache := roundCreatedCache s; roundReceivedCache := roundReceivedCache s; blockCache := blockCache s;
     frameCache := frameCache s; consensusCache := consensusCache s; totConsensusEvents := totConsensusEvents s;
     participantEventsCache := participantEventsCache s; rootsByParticipant := rootsByParticipant s; rootsBySelfParent := rootsBySelfParent s;
     lastRound := lastRound s; lastConsensusEvents := lastConsensusEvents s; lastBlock := v |}.

(** ** Methods of [InmemStore].  A method that mutates the store returns
    the new store; getters that touch an LRU cache return it as well,
    since [lru.Cache.Get] refreshes the recency of the entry it hits. *)

Definition zeroEvent : Event := mkEvent 0 "" 0 [].
Definition zeroBlock : Block := mkBlock 0 [].
Definition zeroFrame : Frame := mkFrame 0 [].
Definition NewRoundReceived : RoundReceived := mkRoundReceived [].

(** [cm.Is(err, cm.KeyNotFound)] *)
Definition isKeyNotFound (err : error) : bool :=
  match err with Some KeyNotFound => true | _ => false end.

(** The loop of [RootsBySelfParent]:
    [for _, root := range s.rootsByParticipant { hash.Set(root.SelfParent.Hash);
    s.rootsBySelfParent[hash] = root }]; [hash.Set] copies the raw hash,
    the identity on [EventHash]. *)
Definition build_roots_by_self_parent (roots : gmap string Root) : gmap EventHash Root :=
  map_fold (fun _ root m => <[sp_hash (SelfParent root) := root]> m) ∅ roots.

Definition RootsBySelfParent (s : InmemStore) : (gmap EventHash Root * error) * InmemStore :=
  match rootsBySelfParent s with
  | Some m => ((m, None), s)
  | None =>
      let m := build_roots_by_self_parent (rootsByParticipant s) in
      ((m, None), set_rootsBySelfParent (Some m) s)
  end.

Definition GetEventBlock (hash : EventHash) (s : InmemStore) : (Event * error) * InmemStore :=
  let '(res, c) := LRU.Get hash (eventCache s) in
  let s := set_eventCache c s in
  match res with
  | Some e => ((e, None), s)
  | None => ((zeroEvent, Some KeyNotFound), s)
  end.

Definition addParticpantEvent (participant : string) (hash : EventHash) (index : Z)
    (s : InmemStore) : InmemStore * error :=
  let '(c, err) := PEC.Set_ participant hash index (participantEventsCache s) in
  (set_participantEventsCache c s, err).

Definition SetEvent (event : Event) (s : InmemStore) : InmemStore * error :=
  let eventHash := ev_hash event in
  let '((_, err), s) := GetEventBlock eventHash s in
  if negb (isKeyNotFound err) && bool_decide (err <> None) then (s, err)
  else
    let '(s, err') :=
      if isKeyNotFound err
      then addParticpantEvent (ev_creator event) eventHash (ev_index event) s
      else (s, None) in
    match err' with
    | Some _ => (s, err')
    | None => (set_eventCache (LRU.Add eventHash event (eventCache s)) s, None)
    end.

Definition ParticipantEvents (participant : string) (skip : Z) (s : InmemStore)
    : list EventHash * error :=
  PEC.Get participant skip (participantEventsCache s).

Definition ParticipantEvent (participant : string) (index : Z) (s : InmemStore)
    : EventHash * error :=
  let '(hash, err) := PEC.GetItem participant index (participantEventsCache s) in
  match err with
  | None => (hash, err)
  | Some _ =>
      match rootsByParticipant s !! participant with
      | None => (hash, Some NoRoot)
      | Some root =>
          if decide (sp_index (SelfParent root) = index)
          then (sp_hash (SelfParent root), None)
          else (hash, err)
      end
  end.

Definition LastEventFrom (participant : string) (s : InmemStore)
    : EventHash * bool * error :=
  let '(last, err) := PEC.GetLast participant (participantEventsCache s) in
  if decide (err <> Some Empty) then (last, false, err)
  else
    match rootsByParticipant s !! participant with
    | Some root => (sp_hash (SelfParent root), true, None)
    | None => (last, false, Some NoRoot)
    end.

Definition LastConsensusEventFrom (participant : string) (s : InmemStore)
    : EventHash * bool * error :=
  match lastConsensusEvents s !! participant with
  | Some last => (last, false, None)
  | None =>
      match rootsByParticipant s !! participant with
      | Some root => (sp_hash (SelfParent root), true, None)
      | None => (0, false, Some NoRoot)
      end
  end.

(** [known[pid.ID]] reads 0 for a missing key, as a Go map does. *)
Definition KnownEvents (s : InmemStore) : gmap Z Z :=
  fold_left
    (fun known '(p, pid) =>
       if decide (default 0 (known !! pid) = -1) then
         match rootsByParticipant s !! p with
         | Some root => <[pid := sp_index (SelfParent root)]> known
         | None => known
         end
       else known)
    (participants s)
    (PEC.Known (participants s) (participantEventsCache s)).

Definition ConsensusEvents (s : InmemStore) : list EventHash :=
  fst (RollingIndex.GetLastWindow (consensusCache s)).

Definition ConsensusEventsCount (s : InmemStore) : Z := totConsensusEvents s.

(** The error of [consensusCache.Set] is dropped, as in the source;
    [s.totConsensusEvents++] is an int64 increment. *)
Definition AddConsensusEvent (event : Event) (s : InmemStore) : InmemStore * error :=
  let '(ci, _) := RollingIndex.Set_ (ev_hash event) (totConsensusEvents s) (consensusCache s) in
  let s := set_consensusCache ci s in
  let s := set_totConsensusEvents (wrap64 (totConsensusEvents s + 1)) s in
  let s := set_lastConsensusEvents
             (<[ev_creator event := ev_hash event]> (lastConsensusEvents s)) s in
  (s, None).

Definition GetRoundCreated (r : Z) (s : InmemStore) : (RoundCreated * error) * InmemStore :=
  let '(res, c) := LRU.Get r (roundCreatedCache s) in
  let s := set_roundCreatedCache c s in
  match res with
  | Some round => ((round, None), s)
  | None => ((NewRoundCreated, Some KeyNotFound), s)
  end.

Definition SetRoundCreated (r : Z) (round : RoundCreated) (s : InmemStore) : InmemStore * error :=
  let s := set_roundCreatedCache (LRU.Add r round (roundCreatedCache s)) s in
  let s := if decide (r > lastRound s) then set_lastRound r s else s in
  (s, None).

Definition GetRoundReceived (r : Z) (s : InmemStore) : (RoundReceived * error) * InmemStore :=
  let '(res, c) := LRU.Get r (roundReceivedCache s) in
  let s := set_roundReceivedCache c s in
  match res with
  | Some round => ((round, None), s)
  | None => ((NewRoundReceived, Some KeyNotFound), s)
  end.

Definition SetRoundReceived (r : Z) (round : RoundReceived) (s : InmemStore) : InmemStore * error :=
  let s := set_roundReceivedCache (LRU.Add r round (roundReceivedCache s)) s in
  let s := if decide (r > lastRound s) then set_lastRound r s else s in
  (s, None).

Definition LastRound (s : InmemStore) : Z := lastRound s.

Definition RoundClothos (r : Z) (s : InmemStore) : list EventHash * InmemStore :=
  let '((round, err), s) := GetRoundCreated r s in
  match err with
  | Some _ => ([], s)
  | None => (rc_clotho round, s)
  end.

Definition RoundEvents (r : Z) (s : InmemStore) : Z * InmemStore :=
  let '((round, err), s) := GetRoundCreated r s in
  match err with
  | Some _ => (0, s)
  | None => (Z.of_nat (length (rc_events round)), s)
  end.

Definition GetRoot (participant : string) (s : InmemStore) : option Root * error :=
  match rootsByParticipant s !! participant with
  | None => (None, Some KeyNotFound)
  | Some res => (Some res, None)
  end.

Definition GetBlock (index : Z) (s : InmemStore) : (Block * error) * InmemStore :=
  let '(res, c) := LRU.Get index (blockCache s) in
  let s := set_blockCache c s in
  match res with
  | Some b => ((b, None), s)
  | None => ((zeroBlock, Some KeyNotFound), s)
  end.

Definition SetBlock (block : Block) (s : InmemStore) : InmemStore * error :=
  let index := block_index block in
  let '((_, err), s) := GetBlock index s in
  if negb (isKeyNotFound err) && bool_decide (err <> None) then (s, err)
  else
    let s := set_blockCache (LRU.Add index block (blockCache s)) s in
    let s := if decide (index > lastBlock s) then set_lastBlock index s else s in
    (s, None).

Definition LastBlockIndex (s : InmemStore) : Z := lastBlock s.

Definition GetFrame (index : Z) (s : InmemStore) : (Frame * error) * InmemStore :=
  let '(res, c) := LRU.Get index (frameCache s) in
  let s := set_frameCache c s in
  match res with
  | Some f => ((f, None), s)
  | None => ((zeroFrame, Some KeyNotFound), s)
  end.

Definition SetFrame (frame : Frame) (s : InmemStore) : InmemStore * error :=
  let index := frame_round frame in
  let '((_, err), s) := GetFrame index s in
  if negb (isKeyNotFound err) && bool_decide (err <> None) then (s, err)
  else (set_frameCache (LRU.Add index frame (frameCache s)) s, None).

(** [Reset(roots)]: [None] is the [os.Exit] taken when [lru.New] fails.
    The block cache, the frame cache, [lastConsensusEvents] and
    [totConsensusEvents] are not touched. *)
Definition Reset (roots : gmap string Root) (s : InmemStore) : option (InmemStore * error) :=
  match LRU.New (K := EventHash) (V := Event) (cacheSize s),
        LRU.New (K := Z) (V := RoundCreated) (cacheSize s),
        LRU.New (K := Z) (V := RoundReceived) (cacheSize s) with
  | Some eventCache', Some roundCache', Some roundReceivedCache' =>
      let s := set_rootsByParticipant roots s in
      let s := set_rootsBySelfParent None s in
      let s := set_eventCache eventCache' s in
      let s := set_roundCreatedCache roundCache' s in
      let s := set_roundReceivedCache roundReceivedCache' s in
      let s := set_consensusCache (RollingIndex.New (cacheSize s)) s in
      let '(pec, err) := PEC.Reset (participantEventsCache s) in
      let s := set_participantEventsCache pec s in
      let s := set_lastRound (-1) s in
      let s := set_lastBlock (-1) s in
      let '((_, err'), s) := RootsBySelfParent s in
      match err' with
      | Some _ => Some (s, err')
      | None => Some (s, err)
      end
  | _, _, _ => None
  end.

(** ** Construction and dynamic membership *)
Section WithBaseRoot.

(** The self-parent hash of the base root of a participant, a function
    of the participant id. *)
Variable base_root_hash : Z -> EventHash.

(** Modelled from the spec: [NewBaseRoot(id)] (root.go is not under
    src/), a root whose self-parent has index -1 and a hash derived from
    the participant id. *)
Definition NewBaseRoot (id : Z) : Root := mkRoot (mkRootEvent (base_root_hash id) (-1)).

(** [NewInmemStore(participants, cacheSize)]; [None] is the [os.Exit]
    taken when [lru.New] fails. *)
Definition NewInmemStore (participants : list (string * Z)) (cacheSize : Z)
    : option InmemStore :=
  let rootsByParticipant :=
    fold_left (fun m '(pk, id) => <[pk := NewBaseRoot id]> m) participants ∅ in
  match LRU.New cacheSize, LRU.New cacheSize, LRU.New cacheSize,
        LRU.New cacheSize, LRU.New cacheSize with
  | Some eventCache, Some roundCreatedCache, Some roundReceivedCache,
    Some blockCache, Some frameCache =>
      Some {| cacheSize := cacheSize;
              participants := participants;
              eventCache := eventCache;
              roundCreatedCache := roundCreatedCache;
              roundReceivedCache := roundReceivedCache;
              blockCache := blockCache;
              frameCache := frameCache;
              consensusCache := RollingIndex.New cacheSize;
              totConsensusEvents := 0;
              participantEventsCache := PEC.New cacheSize participants;
              rootsByParticipant := rootsByParticipant;
              rootsBySelfParent := None;
              lastRound := -1;
              lastConsensusEvents := ∅;
              lastBlock := -1 |}
  | _, _, _, _, _ => None
  end.

(** The callback registered with [participants.OnNewPeer]. *)
Definition OnNewPeer (pk : string) (id : Z) (s : InmemStore) : InmemStore :=
  let s := set_rootsByParticipant (<[pk := NewBaseRoot id]> (rootsByParticipant s)) s in
  let s := set_rootsBySelfParent None s in
  let s := snd (RootsBySelfParent s) in
  let old := participantEventsCache s in
  let s := set_participantEventsCache (PEC.New (cacheSize s) (participants s)) s in
  set_participantEventsCache (PEC.Import old (participantEventsCache s)) s.

(** Modelled from the spec: [Peers.AddPeer] (the peers package is not
    under src/) records the peer in the shared peer set, replacing an
    entry with the same public key, and then calls the new-peer hook. *)
Definition AddPeer (pk : string) (id : Z) (s : InmemStore) : InmemStore :=
  OnNewPeer pk id
    (set_participants (filter (fun e => e.1 <> pk) (participants s) ++ [(pk, id)]) s).

End WithBaseRoot.

(** ** Sequences of store operations

    The state-changing calls a client can make on the store.  Getters that
    do not touch an LRU cache leave the store as it is and are omitted. *)
Module Trace.
Inductive op :=
| OpSetEvent (e : Event)
| OpAddConsensusEvent (e : Event)
| OpSetRoundCreated (r : Z) (round : RoundCreated)
| OpSetRoundReceived (r : Z) (round : RoundReceived)
| OpSetBlock (b : Block)
| OpSetFrame (f : Frame)
| OpGetEventBlock (h : EventHash)
| OpGetRoundCreated (r : Z)
| OpGetRoundReceived (r : Z)
| OpRoundClothos (r : Z)
| OpRoundEvents (r : Z)
| OpGetBlock (i : Z)
| OpGetFrame (i : Z)
| OpRootsBySelfParent
| OpAddPeer (pk : string) (id : Z)
| OpReset (roots : gmap string Root).

(** One call; [None] is the process exit of a failed [Reset]. *)
Definition step (base_root_hash : Z -> EventHash) (o : op) (s : InmemStore)
    : option InmemStore :=
  match o with
  | OpSetEvent e => Some (fst (SetEvent e s))
  | OpAddConsensusEvent e => Some (fst (AddConsensusEvent e s))
  | OpSetRoundCreated r round => Some (fst (SetRoundCreated r round s))
  | OpSetRoundReceived r round => Some (fst (SetRoundReceived r round s))
  | OpSetBlock b => Some (fst (SetBlock b s))
  | OpSetFrame f => Some (fst (SetFrame f s))
  | OpGetEventBlock h => Some (snd (GetEventBlock h s))
  | OpGetRoundCreated r => Some (snd (GetRoundCreated r s))
  | OpGetRoundReceived r => Some (snd (GetRoundReceived r s))
  | OpRoundClothos r => Some (snd (RoundClothos r s))
  | OpRoundEvents r => Some (snd (RoundEvents r s))
  | OpGetBlock i => Some (snd (GetBlock i s))
  | OpGetFrame i => Some (snd (GetFrame i s))
  | OpRootsBySelfParent => Some (snd (RootsBySelfParent s))
  | OpAddPeer pk id => Some (AddPeer base_root_hash pk id s)
  | OpReset roots => fst <$> Reset roots s
  end.

Fixpoint run (base_root_hash : Z -> EventHash) (s : InmemStore) (ops : list op)
    : option InmemStore :=
  match ops with
  | [] => Some s
  | o :: ops' =>
      match step base_root_hash o s with
      | Some s' => run base_root_hash s' ops'
      | None => None
      end
  end.

Definition is_reset (o : op) : bool :=
  match o with OpReset _ => true | _ => false end.

Definition is_add (o : op) : bool :=
  match o with OpAddConsensusEvent _ => true | _ => false end.

(** Number of [AddConsensusEvent] calls in a sequence. *)
Definition count_adds (ops : list op) : nat := length (filter (fun o => is_add o = true) ops).
End Trace.

(** ** Well-formedness of a store

    What every store built by [NewInmemStore] keeps: positive capacities
    (a non-positive size makes [lru.New] fail and the process exit), known
    indices at least -1, and participant-events windows only for
    participants of the peer set, non-negative event indices in the
    windows, and a peer set whose public keys are distinct (the keys
    of the Go map [ByPubKey]). *)
Record wf (s : InmemStore) : Prop := {
  wf_cacheSize : 0 < cacheSize s;
  wf_eventCache : LRU.cap (eventCache s) = cacheSize s;
  wf_pec_size : PEC.size (participantEventsCache s) = cacheSize s;
  wf_known : ∀ p en, PEC.entries (participantEventsCache s) !! p = Some en -> -1 <= PEC.pe_known en;
  wf_window : ∀ p en, PEC.entries (participantEventsCache s) !! p = Some en ->
    Forall (fun ih => 0 <= ih.1) (PEC.pe_window en);
  wf_pec_dom : ∀ p, is_Some (PEC.entries (participantEventsCache s) !! p) -> p ∈ (participants s).*1;
  wf_nodup : NoDup (participants s).*1
}.

(** What the participant-events index keeps in every store: each window
    holds at most [size] entries, all at indices not above the highest
    index assigned to its participant. *)
Definition pec_wf (c : PEC.t) : Prop :=
  ∀ p en, PEC.entries c !! p = Some en ->
    Z.of_nat (length (PEC.pe_window en)) <= PEC.size c ∧
    Forall (fun ih => ih.1 <= PEC.pe_known en) (PEC.pe_window en).

(** The cached reverse root index, once built, is the one built from the
    current roots. *)
Definition roots_index_ok (s : InmemStore) : Prop :=
  ∀ m, rootsBySelfParent s = Some m -> m = build_roots_by_self_parent (rootsByParticipant s).

(** The rolling consensus index has the store's cache size and holds at
    most that many hashes. *)
Definition consensus_ok (s : InmemStore) : Prop :=
  RollingIndex.size (consensusCache s) = cacheSize s ∧
  Z.of_nat (length (RollingIndex.window (consensusCache s))) <= cacheSize s.

(** The five LRU caches have the store's cache size as capacity. *)
Definition caps_ok (s : InmemStore) : Prop :=
  LRU.cap (eventCache s) = cacheSize s ∧ LRU.cap (roundCreatedCache s) = cacheSize s ∧
  LRU.cap (roundReceivedCache s) = cacheSize s ∧ LRU.cap (blockCache s) = cacheSize s ∧
  LRU.cap (frameCache s) = cacheSize s.

(** Everything a store reachable from [NewInmemStore] keeps. *)
Definition store_inv (s : InmemStore) : Prop :=
  wf s ∧ pec_wf (participantEventsCache s) ∧ roots_index_ok s ∧ consensus_ok s ∧ caps_ok s.

(** ** Concrete stores used in the examples below *)

(** A base-root hash function for the examples: participant [id] gets the
    self-parent hash [1000 + id]. *)
Definition example_root_hash (id : Z) : EventHash := 1000 + id.

Definition example_event (h : EventHash) (creator : string) (i : Z) : Event :=
  mkEvent h creator i [].

(** [Peers] with one participant "P1" (id 1), or two ("P1", "P2"). *)
Definition one_peer : list (string * Z) := [("P1", 1)].
Definition two_peers : list (string * Z) := [("P1", 1); ("P2", 2)].

(** A fresh store over [ps] with cache size 100; the [None] branch (the
    process exit of [NewInmemStore]) is not taken for a positive size. *)
Definition fresh_store (ps : list (string * Z)) : InmemStore :=
  match NewInmemStore example_root_hash ps 100 with
  | Some s => s
  | None => mkInmemStore 0 [] (LRU.mkCache 0 []) (LRU.mkCache 0 []) (LRU.mkCache 0 [])
              (LRU.mkCache 0 []) (LRU.mkCache 0 []) (RollingIndex.New 0) 0
              (PEC.New 0 []) ∅ None 0 ∅ 0
  end.

(** A root different from the base roots, and a root map giving two
    participants that same root. *)
Definition new_root : Root := mkRoot (mkRootEvent 77 4).
Definition shared_roots : gmap string Root := <["P1" := new_root]> {["P2" := new_root]}.

(** [fresh_store one_peer] after storing block 2, frame 5 and a consensus
    event (hash 9) of "P1". *)
Definition history_store : InmemStore :=
  default (fresh_store one_peer)
    (Trace.run example_root_hash (fresh_store one_peer)
       [Trace.OpSetBlock (mkBlock 2 []); Trace.OpSetFrame (mkFrame 5 []);
        Trace.OpAddConsensusEvent (example_event 9 "P1" 0)]).

(** Roots for a [Reset] of [fresh_store two_peers] that leave the peer
    "P2" without a root and give one to "P9", which is not a peer. *)
Definition partial_roots : gmap string Root :=
  <["P1" := new_root]> {["P9" := mkRoot (mkRootEvent 55 3)]}.

(** [fresh_store two_peers] after [Reset(partial_roots)], and that store
    after inserting event 5, the first event (index 0) of "P2". *)
Definition rootless_store : InmemStore :=
  default (fresh_store two_peers)
    (Trace.run example_root_hash (fresh_store two_peers) [Trace.OpReset partial_roots]).

Definition rootless_store_event : InmemStore :=
  default (fresh_store two_peers)
    (Trace.run example_root_hash (fresh_store two_peers)
       [Trace.OpReset partial_roots; Trace.OpSetEvent (example_event 5 "P2" 0)]).

(** * Properties *)

(** ** The LRU cache *)

Lemma LRU_Get_find {K V} `{EqDecision K} (k : K) (c : LRU.cache K V) :
  fst (LRU.Get k c) = LRU.find k (LRU.items c).
Proof. unfold LRU.Get. by destruct (LRU.find k (LRU.items c)). Qed.

Lemma LRU_Get_cap {K V} `{EqDecision K} (k : K) (c : LRU.cache K V) :
  LRU.cap (snd (LRU.Get k c)) = LRU.cap c.
Proof. unfold LRU.Get. by destruct (LRU.find k (LRU.items c)). Qed.

Lemma LRU_Add_cap {K V} `{EqDecision K} (k : K) (v : V) (c : LRU.cache K V) :
  LRU.cap (LRU.Add k v c) = LRU.cap c.
Proof. unfold LRU.Add. destruct (LRU.find k (LRU.items c)); [done|]. by case_decide. Qed.

(** An entry just added is found, as long as the capacity is positive. *)
Lemma LRU_Add_find {K V} `{EqDecision K} (k : K) (v : V) (c : LRU.cache K V) :
  0 < LRU.cap c -> LRU.find k (LRU.items (LRU.Add k v c)) = Some v.
Proof.
  intros Hcap. unfold LRU.Add.
  destruct (LRU.find k (LRU.items c)).
  - simpl. by rewrite decide_True.
  - case_decide as Hlen; simpl.
    + destruct (LRU.items c) as [|x l] eqn:Hl; simpl in *; [lia|].
      by rewrite decide_True.
    + by rewrite decide_True.
Qed.

(** ** [Reset] *)

(** The roots keyed by self-parent hash: every key is the hash of the root
    it maps to, every root of [roots] is reachable by its hash, and with
    pairwise distinct hashes there is one entry per participant. *)
Lemma build_roots_by_self_parent_spec (roots : gmap string Root) :
  let m := build_roots_by_self_parent roots in
  (∀ h r, m !! h = Some r -> sp_hash (SelfParent r) = h ∧ ∃ p, roots !! p = Some r) ∧
  (∀ p r, roots !! p = Some r -> is_Some (m !! sp_hash (SelfParent r))) ∧
  ((∀ p q r1 r2, roots !! p = Some r1 -> roots !! q = Some r2 ->
      sp_hash (SelfParent r1) = sp_hash (SelfParent r2) -> p = q) ->
   size m = size roots).
Proof.
  unfold build_roots_by_self_parent. simpl.
  apply (map_fold_weak_ind
    (fun (m : gmap EventHash Root) (rs : gmap string Root) =>
      (∀ h r, m !! h = Some r -> sp_hash (SelfParent r) = h ∧ ∃ p, rs !! p = Some r) ∧
      (∀ p r, rs !! p = Some r -> is_Some (m !! sp_hash (SelfParent r))) ∧
      ((∀ p q r1 r2, rs !! p = Some r1 -> rs !! q = Some r2 ->
          sp_hash (SelfParent r1) = sp_hash (SelfParent r2) -> p = q) ->
       size m = size rs))).
  - split; [|split].
    + intros h r H. by rewrite lookup_empty in H.
    + intros p r H. by rewrite lookup_empty in H.
    + intros _. by rewrite !map_size_empty.
  - intros i x rs m Hi (IH1 & IH2 & IH3). split; [|split].
    + intros h r H. rewrite lookup_insert in H. case_decide as Heq.
      * inversion H; subst. split; [done|]. exists i. by rewrite lookup_insert_eq.
      * destruct (IH1 h r H) as [Hh [p Hp]]. split; [done|].
        exists p. rewrite lookup_insert_ne; [done|]. intros ->. congruence.
    + intros p r H. rewrite lookup_insert in H. case_decide as Heq.
      * inversion H; subst. rewrite lookup_insert_eq. by eexists.
      * rewrite lookup_insert. case_decide; [by eexists|]. by apply (IH2 p).
    + intros Hinj.
      assert (Hinj' : ∀ p q r1 r2, rs !! p = Some r1 -> rs !! q = Some r2 ->
          sp_hash (SelfParent r1) = sp_hash (SelfParent r2) -> p = q).
      { intros p q r1 r2 Hp Hq Hpq. apply (Hinj p q r1 r2); [| |done].
        - rewrite lookup_insert_ne; [done|]. intros ->. congruence.
        - rewrite lookup_insert_ne; [done|]. intros ->. congruence. }
      rewrite map_size_insert_None.
      * rewrite map_size_insert_None; [|done]. by rewrite (IH3 Hinj').
      * destruct (m !! sp_hash (SelfParent x)) as [r|] eqn:Hm; [|done].
        destruct (IH1 _ _ Hm) as [Hh [p Hp]].
        assert (p = i) as ->.
        { apply (Hinj p i r x); [| by rewrite lookup_insert_eq | done].
          rewrite lookup_insert_ne; [done|]. intros ->. congruence. }
        congruence.
Qed.

(** Everything [Reset] does, field by field. *)
Lemma Reset_fields (roots : gmap string Root) (s s' : InmemStore) (err : error) :
  Reset roots s = Some (s', err) ->
  err = None ∧
  0 < cacheSize s ∧
  cacheSize s' = cacheSize s ∧
  participants s' = participants s ∧
  eventCache s' = LRU.mkCache (cacheSize s) [] ∧
  roundCreatedCache s' = LRU.mkCache (cacheSize s) [] ∧
  roundReceivedCache s' = LRU.mkCache (cacheSize s) [] ∧
  blockCache s' = blockCache s ∧
  frameCache s' = frameCache s ∧
  consensusCache s' = RollingIndex.New (cacheSize s) ∧
  totConsensusEvents s' = totConsensusEvents s ∧
  participantEventsCache s' = fst (PEC.Reset (participantEventsCache s)) ∧
  rootsByParticipant s' = roots ∧
  rootsBySelfParent s' = Some (build_roots_by_self_parent roots) ∧
  lastRound s' = -1 ∧
  lastConsensusEvents s' = lastConsensusEvents s ∧
  lastBlock s' = -1.
Proof.
  unfold Reset, LRU.New. case_decide; [discriminate|].
  unfold PEC.Reset, RootsBySelfParent. cbn -[build_roots_by_self_parent fmap].
  intros H'. injection H' as <- <-. cbn -[build_roots_by_self_parent fmap].
  repeat split; lia.
Qed.


Lemma GetBlock_result (i : Z) (s : InmemStore) :
  fst (GetBlock i s) =
    match LRU.find i (LRU.items (blockCache s)) with
    | Some b => (b, None)
    | None => (zeroBlock, Some KeyNotFound)
    end.
Proof. unfold GetBlock, LRU.Get. by destruct (LRU.find i (LRU.items (blockCache s))). Qed.

Lemma GetFrame_result (i : Z) (s : InmemStore) :
  fst (GetFrame i s) =
    match LRU.find i (LRU.items (frameCache s)) with
    | Some f => (f, None)
    | None => (zeroFrame, Some KeyNotFound)
    end.
Proof. unfold GetFrame, LRU.Get. by destruct (LRU.find i (LRU.items (frameCache s))). Qed.

(** C1 (defect): [Reset] recreates the rolling consensus index but leaves
    [totConsensusEvents] as it was: after one [AddConsensusEvent] on a fresh
    store and a [Reset], [ConsensusEventsCount()] is 1, not 0. *)
Theorem ConsensusEventsCount_survives_Reset :
  ConsensusEventsCount <$>
    Trace.run example_root_hash (fresh_store one_peer)
      [Trace.OpAddConsensusEvent (example_event 1 "P1" 0);
       Trace.OpReset {["P1" := new_root]}]
  = Some 1.
Proof. vm_compute. reflexivity. Qed.

(** C2 (counterexample): [Reset] with a root map in which two participants
    have roots with the same self-parent hash leaves [RootsBySelfParent()]
    with one entry for two participants. *)
Lemma RootsBySelfParent_after_Reset_collision :
  size shared_roots = 2%nat ∧
  (fun s => size (fst (fst (RootsBySelfParent s)))) <$>
    Trace.run example_root_hash (fresh_store two_peers) [Trace.OpReset shared_roots]
  = Some 1%nat.
Proof. split; vm_compute; reflexivity. Qed.

(** C2 (amended): after [Reset(roots)], [LastRound()] and
    [LastBlockIndex()] are -1, [ConsensusEvents()] is empty, and
    [RootsBySelfParent()] maps exactly the self-parent hashes of the roots
    in [roots], each to a root of [roots] with that hash; when those hashes
    are pairwise distinct it has one entry per participant of [roots]. *)
Theorem Reset_postconditions (roots : gmap string Root) (s s' : InmemStore) (err : error)
    (H : Reset roots s = Some (s', err)) :
  LastRound s' = -1 ∧ LastBlockIndex s' = -1 ∧ ConsensusEvents s' = [] ∧
  let m := fst (fst (RootsBySelfParent s')) in
  (∀ h r, m !! h = Some r -> sp_hash (SelfParent r) = h ∧ ∃ p, roots !! p = Some r) ∧
  (∀ p r, roots !! p = Some r -> is_Some (m !! sp_hash (SelfParent r))) ∧
  ((∀ p q r1 r2, roots !! p = Some r1 -> roots !! q = Some r2 ->
      sp_hash (SelfParent r1) = sp_hash (SelfParent r2) -> p = q) ->
   size m = size roots).
Proof.
  destruct (Reset_fields _ _ _ _ H) as
    (_ & _ & _ & _ & _ & _ & _ & _ & _ & Hcc & _ & _ & _ & Hrb & Hlr & _ & Hlb).
  unfold LastRound, LastBlockIndex, ConsensusEvents, RootsBySelfParent.
  rewrite Hlr, Hlb, Hcc, Hrb. split; [done|]. split; [done|]. split; [done|].
  apply build_roots_by_self_parent_spec.
Qed.

Lemma Reset_postconditions_witness :
  match Reset shared_roots (fresh_store two_peers) with
  | Some (s', _) =>
      LastRound s' = -1 ∧ LastBlockIndex s' = -1 ∧ ConsensusEvents s' = [] ∧
      let m := fst (fst (RootsBySelfParent s')) in
      (∀ h r, m !! h = Some r -> sp_hash (SelfParent r) = h ∧ ∃ p, shared_roots !! p = Some r) ∧
      (∀ p r, shared_roots !! p = Some r -> is_Some (m !! sp_hash (SelfParent r))) ∧
      ((∀ p q r1 r2, shared_roots !! p = Some r1 -> shared_roots !! q = Some r2 ->
          sp_hash (SelfParent r1) = sp_hash (SelfParent r2) -> p = q) ->
       size m = size shared_roots)
  | None => False
  end.
Proof.
  pose proof (Reset_postconditions shared_roots (fresh_store two_peers)) as T.
  destruct (Reset shared_roots (fresh_store two_peers)) as [[s' err]|] eqn:H;
    [|vm_compute in H; discriminate].
  exact (T s' err eq_refl).
Defined.

(** C10: [Reset] touches neither the block cache, the frame cache nor the
    last-consensus-event map: a block or frame stored before is still
    returned (while [LastBlockIndex()] is -1), and a participant with a
    recorded consensus event still gets that hash, not its new root. *)
Theorem Reset_keeps_blocks_frames_last_consensus
    (roots : gmap string Root) (s s' : InmemStore) (err : error)
    (H : Reset roots s = Some (s', err)) :
  LastBlockIndex s' = -1 ∧
  (∀ i b, LRU.find i (LRU.items (blockCache s)) = Some b -> fst (GetBlock i s') = (b, None)) ∧
  (∀ i f, LRU.find i (LRU.items (frameCache s)) = Some f -> fst (GetFrame i s') = (f, None)) ∧
  (∀ p h, lastConsensusEvents s !! p = Some h ->
     LastConsensusEventFrom p s' = (h, false, None)).
Proof.
  destruct (Reset_fields _ _ _ _ H) as
    (_ & _ & _ & _ & _ & _ & _ & Hbc & Hfc & _ & _ & _ & _ & _ & _ & Hlce & Hlb).
  split; [exact Hlb|]. split; [|split].
  - intros i b Hb. rewrite GetBlock_result, Hbc, Hb. done.
  - intros i f Hf. rewrite GetFrame_result, Hfc, Hf. done.
  - intros p h Hh. unfold LastConsensusEventFrom. rewrite Hlce, Hh. done.
Qed.

(** [history_store] reset to a new root for "P1". *)
Lemma Reset_keeps_blocks_frames_last_consensus_witness :
  match Reset {["P1" := new_root]} history_store with
  | Some (s', _) =>
      LastBlockIndex s' = -1 ∧
      fst (GetBlock 2 s') = (mkBlock 2 [], None) ∧
      fst (GetFrame 5 s') = (mkFrame 5 [], None) ∧
      LastConsensusEventFrom "P1" s' = (9, false, None)
  | None => False
  end.
Proof.
  pose proof (Reset_keeps_blocks_frames_last_consensus {["P1" := new_root]} history_store) as T.
  destruct (Reset {["P1" := new_root]} history_store) as [[s' err]|] eqn:H;
    [|vm_compute in H; discriminate].
  destruct (T s' err eq_refl) as (Hlb & Hb & Hf & Hl).
  split; [exact Hlb|]. split; [apply Hb; vm_compute; reflexivity|].
  split; [apply Hf; vm_compute; reflexivity|]. apply Hl. vm_compute. reflexivity.
Defined.

(** ** Rounds *)

Lemma SetRoundCreated_lastRound (r : Z) (round : RoundCreated) (s : InmemStore) :
  LastRound (fst (SetRoundCreated r round s)) = Z.max (LastRound s) r.
Proof. unfold SetRoundCreated, LastRound. simpl. case_decide; simpl; lia. Qed.

Lemma SetRoundReceived_lastRound (r : Z) (round : RoundReceived) (s : InmemStore) :
  LastRound (fst (SetRoundReceived r round s)) = Z.max (LastRound s) r.
Proof. unfold SetRoundReceived, LastRound. simpl. case_decide; simpl; lia. Qed.

Lemma NewInmemStore_fields (bh : Z -> EventHash) (ps : list (string * Z)) (n : Z) (s : InmemStore) :
  NewInmemStore bh ps n = Some s ->
  0 < n ∧ cacheSize s = n ∧ participants s = ps ∧
  eventCache s = LRU.mkCache n [] ∧ roundCreatedCache s = LRU.mkCache n [] ∧
  consensusCache s = RollingIndex.New n ∧ totConsensusEvents s = 0 ∧
  participantEventsCache s = PEC.New n ps ∧
  rootsByParticipant s = fold_left (fun m '(pk, id) => <[pk := NewBaseRoot bh id]> m) ps ∅ ∧
  lastRound s = -1 ∧ lastConsensusEvents s = ∅ ∧ lastBlock s = -1.
Proof.
  unfold NewInmemStore, LRU.New. case_decide; [discriminate|].
  intros H'. injection H' as <-. simpl. repeat split; lia.
Qed.

(** C8 (counterexample): on a store whose last round is already 10,
    [SetRoundCreated(5, ..)] then [SetRoundReceived(3, ..)] leave
    [LastRound()] at 10, not 5. *)
Lemma LastRound_not_r_counterexample :
  LastRound <$>
    Trace.run example_root_hash (fresh_store one_peer)
      [Trace.OpSetRoundCreated 10 NewRoundCreated;
       Trace.OpSetRoundCreated 5 NewRoundCreated;
       Trace.OpSetRoundReceived 3 NewRoundReceived]
  = Some 10.
Proof. vm_compute. reflexivity. Qed.

(** C8 (amended): both setters set [lastRound] to the maximum of its value
    and the given round; [SetRoundCreated(r, ..)] then
    [SetRoundReceived(r', ..)] with [r' < r] leave [LastRound()] at the
    maximum of its previous value and [r]; a fresh store has [LastRound()]
    = -1. *)
Theorem SetRound_lastRound_max (s : InmemStore) (r r' : Z)
    (rc : RoundCreated) (rr : RoundReceived) :
  LastRound (fst (SetRoundCreated r rc s)) = Z.max (LastRound s) r ∧
  LastRound (fst (SetRoundReceived r' rr s)) = Z.max (LastRound s) r' ∧
  (r' < r ->
   LastRound (fst (SetRoundReceived r' rr (fst (SetRoundCreated r rc s))))
   = Z.max (LastRound s) r) ∧
  (∀ bh ps n s0, NewInmemStore bh ps n = Some s0 -> LastRound s0 = -1).
Proof.
  split; [apply SetRoundCreated_lastRound|].
  split; [apply SetRoundReceived_lastRound|].
  split.
  - intros Hlt. rewrite SetRoundReceived_lastRound, SetRoundCreated_lastRound. lia.
  - intros bh ps n s0 H. apply (NewInmemStore_fields _ _ _ _ H).
Qed.

Lemma SetRound_lastRound_max_witness :
  LastRound (fst (SetRoundReceived 3 NewRoundReceived
                    (fst (SetRoundCreated 5 NewRoundCreated (fresh_store one_peer)))))
  = Z.max (LastRound (fresh_store one_peer)) 5 ∧
  LastRound (fresh_store one_peer) = -1.
Proof.
  destruct (SetRound_lastRound_max (fresh_store one_peer) 5 3 NewRoundCreated NewRoundReceived)
    as (_ & _ & H3 & H4).
  split; [apply H3; lia|]. apply (H4 example_root_hash one_peer 100). vm_compute. reflexivity.
Defined.

(** C9: for a round with no stored created round, [RoundClothos] returns
    the empty list and [RoundEvents] returns 0; their results carry no
    error at all. *)
Theorem RoundClothos_RoundEvents_missing (r : Z) (s : InmemStore)
    (H : LRU.find r (LRU.items (roundCreatedCache s)) = None) :
  fst (RoundClothos r s) = [] ∧ fst (RoundEvents r s) = 0.
Proof.
  unfold RoundClothos, RoundEvents, GetRoundCreated, LRU.Get. rewrite H. done.
Qed.

Lemma RoundClothos_RoundEvents_missing_witness :
  fst (RoundClothos 3 history_store) = [] ∧ fst (RoundEvents 3 history_store) = 0.
Proof. apply RoundClothos_RoundEvents_missing. vm_compute. reflexivity. Defined.

(** ** Well-formedness is an invariant of the store *)

Lemma wf_ext (s s' : InmemStore) :
  cacheSize s' = cacheSize s ->
  LRU.cap (eventCache s') = LRU.cap (eventCache s) ->
  participantEventsCache s' = participantEventsCache s ->
  participants s' = participants s ->
  wf s -> wf s'.
Proof.
  intros Hc He Hp Hps [H1 H2 H3 H4 H4' H5 H6].
  constructor; rewrite ?Hc, ?He, ?Hp, ?Hps; done.
Qed.

Lemma PEC_Set_size (p : string) (h : EventHash) (i : Z) (c : PEC.t) :
  PEC.size (fst (PEC.Set_ p h i c)) = PEC.size c.
Proof.
  unfold PEC.Set_. destruct (PEC.entries c !! p); [|done].
  repeat case_decide; done.
Qed.

Lemma PEC_Set_entries (p : string) (h : EventHash) (i : Z) (c : PEC.t) :
  PEC.entries (fst (PEC.Set_ p h i c)) = PEC.entries c ∨
  ∃ en, PEC.entries c !! p = Some en ∧ i = PEC.pe_known en + 1 ∧
    PEC.entries (fst (PEC.Set_ p h i c)) =
      <[p := PEC.mkEntry
               (let w := PEC.pe_window en ++ [(i, h)] in
                if decide (Z.of_nat (length w) > PEC.size c) then tail w else w) i]>
        (PEC.entries c).
Proof.
  unfold PEC.Set_. destruct (PEC.entries c !! p) as [en|] eqn:Hp; [|by left].
  case_decide as Hi.
  - right. eexists. split; [done|]. split; [done|]. reflexivity.
  - left. by case_decide.
Qed.

Lemma wf_SetEvent (e : Event) (s : InmemStore) : wf s -> wf (fst (SetEvent e s)).
Proof.
  intros Hwf. unfold SetEvent, GetEventBlock, addParticpantEvent.
  destruct (LRU.Get (ev_hash e) (eventCache s)) as [res c] eqn:HG.
  assert (Hc : LRU.cap c = cacheSize s).
  { pose proof (LRU_Get_cap (ev_hash e) (eventCache s)) as Hcap. rewrite HG in Hcap.
    simpl in Hcap. rewrite Hcap. apply Hwf. }
  destruct res as [ev|]; simpl.
  - apply (wf_ext s); simpl; try done. rewrite LRU_Add_cap, Hc. symmetry. apply Hwf.
  - destruct (PEC.Set_ (ev_creator e) (ev_hash e) (ev_index e) (participantEventsCache s))
      as [c' err] eqn:HS.
    assert (Hwf' : wf (set_participantEventsCache c' (set_eventCache c s))).
    { destruct Hwf as [H1 H2 H3 H4 H4' H5 H6]. constructor; simpl; try done.
      - pose proof (PEC_Set_size (ev_creator e) (ev_hash e) (ev_index e)
                      (participantEventsCache s)) as Hz. rewrite HS in Hz. simpl in Hz. congruence.
      - pose proof (PEC_Set_entries (ev_creator e) (ev_hash e) (ev_index e)
                      (participantEventsCache s)) as [Hq | (en & Hen & Hi & Hq)];
          rewrite HS in Hq; simpl in Hq; rewrite Hq; [done|].
        intros q en'. rewrite lookup_insert_Some. intros [[_ <-] | [_ Hq']].
        + simpl. specialize (H4 _ _ Hen). lia.
        + by apply (H4 q).
      - pose proof (PEC_Set_entries (ev_creator e) (ev_hash e) (ev_index e)
                      (participantEventsCache s)) as [Hq | (en & Hen & Hi & Hq)];
          rewrite HS in Hq; simpl in Hq; rewrite Hq; [done|].
        intros q en'. rewrite lookup_insert_Some. intros [[_ <-] | [_ Hq']].
        + simpl. specialize (H4 _ _ Hen). specialize (H4' _ _ Hen).
          assert (Hw : Forall (fun ih : Z * EventHash => 0 <= ih.1)
                        (PEC.pe_window en ++ [(ev_index e, ev_hash e)])).
          { apply Forall_app. split; [done|]. constructor; [simpl; lia|constructor]. }
          case_decide; [|done].
          destruct (PEC.pe_window en ++ [(ev_index e, ev_hash e)]); simpl; [constructor|].
          by inversion Hw.
        + by apply (H4' q).
      - pose proof (PEC_Set_entries (ev_creator e) (ev_hash e) (ev_index e)
                      (participantEventsCache s)) as [Hq | (en & Hen & Hi & Hq)];
          rewrite HS in Hq; simpl in Hq; rewrite Hq; [done|].
        intros q Hsome. rewrite lookup_insert in Hsome. case_decide; subst.
        + apply H5. by eexists.
        + by apply H5. }
    destruct err; simpl; [exact Hwf'|].
    apply (wf_ext (set_participantEventsCache c' (set_eventCache c s))); try done.
    cbn -[LRU.Add]. apply LRU_Add_cap.
Qed.

Lemma NoDup_fst_filter_app (ps : list (string * Z)) (pk : string) (id : Z) :
  NoDup ps.*1 -> NoDup (filter (fun e => e.1 <> pk) ps ++ [(pk, id)]).*1.
Proof.
  intros Hnd. rewrite fmap_app. apply NoDup_app. split; [|split].
  - induction ps as [|[k v] ps IH]; simpl; [constructor|].
    inversion Hnd; subst. rewrite filter_cons. simpl. case_decide; simpl; [|by apply IH].
    constructor; [|by apply IH]. intros Hin. apply H1.
    apply list_elem_of_fmap in Hin as [[k' v'] [Heq Hin']]. simpl in Heq; subst.
    apply list_elem_of_filter in Hin' as [_ Hin']. apply list_elem_of_fmap. by exists (k', v').
  - intros x Hx Hx'. simpl in Hx'. apply list_elem_of_singleton in Hx'. subst.
    apply list_elem_of_fmap in Hx as [[k' v'] [Heq Hin']]. simpl in Heq; subst.
    apply list_elem_of_filter in Hin' as [Hne _]. done.
  - simpl. apply NoDup_singleton.
Qed.

Lemma wf_AddPeer (bh : Z -> EventHash) (pk : string) (id : Z) (s : InmemStore) :
  wf s -> wf (AddPeer bh pk id s).
Proof.
  intros [H1 H2 H3 H4 H4' H5 H6]. unfold AddPeer, OnNewPeer, RootsBySelfParent. simpl.
  set (ps' := filter (fun e => e.1 <> pk) (participants s) ++ [(pk, id)]).
  assert (Hps : ∀ p, p ∈ (participants s).*1 -> p ∈ ps'.*1).
  { intros p Hp. unfold ps'. rewrite fmap_app. apply elem_of_app.
    destruct (decide (p = pk)) as [->|Hne].
    - right. simpl. apply list_elem_of_singleton. done.
    - left. apply list_elem_of_fmap in Hp as [[k v] [Heq Hin]]. simpl in Heq; subst.
      apply list_elem_of_fmap. exists (k, v). split; [done|].
      apply list_elem_of_filter. done. }
  assert (Hnew : ∀ p en, PEC.entries (PEC.New (cacheSize s) ps') !! p = Some en ->
                 en = PEC.fresh_entry ∧ p ∈ ps'.*1).
  { intros p en Hp. unfold PEC.New in Hp. simpl in Hp.
    apply elem_of_list_to_map_2 in Hp. apply list_elem_of_fmap in Hp as [[k v] [Heq Hin]].
    inversion Heq; subst. split; [done|]. apply list_elem_of_fmap.
    eexists; split; [|exact Hin]. done. }
  constructor; simpl; try done.
  - intros p en Hp. apply lookup_union_Some_raw in Hp as [Hp | [_ Hp]].
    + by apply (H4 p).
    + apply Hnew in Hp as [-> _]. simpl. lia.
  - intros p en Hp. apply lookup_union_Some_raw in Hp as [Hp | [_ Hp]].
    + by apply (H4' p).
    + apply Hnew in Hp as [-> _]. simpl. constructor.
  - intros p [en Hp]. apply lookup_union_Some_raw in Hp as [Hp | [_ Hp]].
    + apply Hps, H5. by eexists.
    + by apply Hnew in Hp as [_ ?].
  - by apply NoDup_fst_filter_app.
Qed.

Lemma wf_Reset (roots : gmap string Root) (s s' : InmemStore) (err : error) :
  Reset roots s = Some (s', err) -> wf s -> wf s'.
Proof.
  intros H [H1 H2 H3 H4 H4' H5 H6].
  destruct (Reset_fields _ _ _ _ H) as
    (_ & _ & Hc & Hps & Hec & _ & _ & _ & _ & _ & _ & Hpec & _).
  constructor; rewrite ?Hc, ?Hps, ?Hec, ?Hpec; unfold PEC.Reset; simpl; try done.
  - intros p en. rewrite lookup_fmap. destruct (_ !! p) as [en0|] eqn:Hp; simpl; [|done].
    intros Heq. inversion Heq; subst. simpl. by apply (H4 p).
  - intros p en. rewrite lookup_fmap. destruct (_ !! p) as [en0|] eqn:Hp; simpl; [|done].
    intros Heq. inversion Heq; subst. simpl. constructor.
  - intros p. rewrite lookup_fmap. destruct (_ !! p) as [en0|] eqn:Hp; simpl.
    + intros _. apply H5. by eexists.
    + by intros [? ?].
Qed.

(** The store-changing calls other than [SetEvent], [AddPeer] and [Reset]
    leave the capacity of the event cache, the participant-events index and
    the peer set as they are. *)
Ltac wf_by_ext s :=
  apply (wf_ext s); try done;
  repeat match goal with
  | |- context [LRU.Get ?k ?c] =>
      let Hg := fresh "Hg" in
      pose proof (LRU_Get_cap k c) as Hg;
      destruct (LRU.Get k c) as [[?|] ?]; simpl in Hg |- *
  | |- context [RollingIndex.Set_ ?a ?b ?c] => destruct (RollingIndex.Set_ a b c); simpl
  | |- context [decide ?P] => destruct (decide P); simpl
  end;
  rewrite ?LRU_Add_cap; done.

Lemma wf_step (bh : Z -> EventHash) (o : Trace.op) (s s' : InmemStore) :
  wf s -> Trace.step bh o s = Some s' -> wf s'.
Proof.
  intros Hwf Hs. destruct o; simpl in Hs.
  - injection Hs as <-. by apply wf_SetEvent.
  - injection Hs as <-. unfold AddConsensusEvent. wf_by_ext s.
  - injection Hs as <-. unfold SetRoundCreated. wf_by_ext s.
  - injection Hs as <-. unfold SetRoundReceived. wf_by_ext s.
  - injection Hs as <-. unfold SetBlock, GetBlock, isKeyNotFound. wf_by_ext s.
  - injection Hs as <-. unfold SetFrame, GetFrame, isKeyNotFound. wf_by_ext s.
  - injection Hs as <-. unfold GetEventBlock. wf_by_ext s.
  - injection Hs as <-. unfold GetRoundCreated. wf_by_ext s.
  - injection Hs as <-. unfold GetRoundReceived. wf_by_ext s.
  - injection Hs as <-. unfold RoundClothos, GetRoundCreated. wf_by_ext s.
  - injection Hs as <-. unfold RoundEvents, GetRoundCreated. wf_by_ext s.
  - injection Hs as <-. unfold GetBlock. wf_by_ext s.
  - injection Hs as <-. unfold GetFrame. wf_by_ext s.
  - injection Hs as <-. unfold RootsBySelfParent.
    destruct (rootsBySelfParent s); simpl; [done|]. by apply (wf_ext s).
  - injection Hs as <-. by apply wf_AddPeer.
  - destruct (Reset roots s) as [[s'' err]|] eqn:HR; simpl in Hs; [|discriminate].
    injection Hs as <-. by apply (wf_Reset roots s _ err).
Qed.


Lemma wf_NewInmemStore (bh : Z -> EventHash) (ps : list (string * Z)) (n : Z) (s : InmemStore) :
  NoDup ps.*1 -> NewInmemStore bh ps n = Some s -> wf s.
Proof.
  intros Hnd H.
  destruct (NewInmemStore_fields _ _ _ _ H) as
    (Hn & Hc & Hps & Hec & _ & _ & _ & Hpec & _).
  assert (Hnew : ∀ p en, PEC.entries (PEC.New n ps) !! p = Some en ->
                 en = PEC.fresh_entry ∧ p ∈ ps.*1).
  { intros p en Hp. unfold PEC.New in Hp. simpl in Hp.
    apply elem_of_list_to_map_2 in Hp. apply list_elem_of_fmap in Hp as [[k v] [Heq Hin]].
    inversion Heq; subst. split; [done|]. apply list_elem_of_fmap.
    eexists; split; [|exact Hin]. done. }
  constructor; rewrite ?Hc, ?Hps, ?Hec, ?Hpec; simpl; try done.
  - intros p en Hp. apply Hnew in Hp as [-> _]. simpl. lia.
  - intros p en Hp. apply Hnew in Hp as [-> _]. simpl. constructor.
  - intros p [en Hp]. by apply Hnew in Hp as [_ ?].
Qed.

(** ** [SetEvent] *)

Lemma SetEvent_hit (e : Event) (s : InmemStore) (v : Event) (c : LRU.cache EventHash Event) :
  LRU.Get (ev_hash e) (eventCache s) = (Some v, c) ->
  SetEvent e s = (set_eventCache (LRU.Add (ev_hash e) e c) s, None).
Proof. intros H. unfold SetEvent, GetEventBlock. rewrite H. simpl. by destruct s. Qed.

Lemma SetEvent_miss (e : Event) (s : InmemStore) (c : LRU.cache EventHash Event) :
  LRU.Get (ev_hash e) (eventCache s) = (None, c) ->
  SetEvent e s =
    let '(pec, err) := PEC.Set_ (ev_creator e) (ev_hash e) (ev_index e)
                         (participantEventsCache s) in
    match err with
    | Some _ => (set_participantEventsCache pec (set_eventCache c s), err)
    | None => (set_eventCache (LRU.Add (ev_hash e) e c)
                 (set_participantEventsCache pec (set_eventCache c s)), None)
    end.
Proof.
  intros H. unfold SetEvent, GetEventBlock, addParticpantEvent. rewrite H. simpl.
  destruct (PEC.Set_ _ _ _ _) as [pec [err|]]; reflexivity.
Qed.

(** After a successful [SetEvent(e)], [e] is in the event cache. *)
Lemma SetEvent_cached (e : Event) (s s1 : InmemStore) :
  wf s -> SetEvent e s = (s1, None) ->
  LRU.find (ev_hash e) (LRU.items (eventCache s1)) = Some e.
Proof.
  intros Hwf H.
  pose proof (LRU_Get_cap (ev_hash e) (eventCache s)) as Hcap.
  destruct (LRU.Get (ev_hash e) (eventCache s)) as [[v|] c] eqn:HG; simpl in Hcap.
  - rewrite (SetEvent_hit e s v c HG) in H. injection H as <-. simpl.
    apply LRU_Add_find. rewrite Hcap, (wf_eventCache s Hwf). apply Hwf.
  - rewrite (SetEvent_miss e s c HG) in H.
    destruct (PEC.Set_ _ _ _ _) as [pec [err|]]; [discriminate|].
    injection H as <-. simpl.
    apply LRU_Add_find. rewrite Hcap, (wf_eventCache s Hwf). apply Hwf.
Qed.

(** C5 (counterexample): on a fresh store, [SetEvent] of a first event of
    "P1" and then of a second event twice: no error, but
    [ParticipantEvents("P1", -1)] has length 2, not 1. *)
Lemma SetEvent_twice_length_counterexample :
  (fun s => (snd (SetEvent (example_event 2 "P1" 1) s),
             length (fst (ParticipantEvents "P1" (-1) (fst (SetEvent (example_event 2 "P1" 1) s))))))
    <$> Trace.run example_root_hash (fresh_store one_peer)
          [Trace.OpSetEvent (example_event 1 "P1" 0); Trace.OpSetEvent (example_event 2 "P1" 1)]
  = Some (None, 2%nat).
Proof. vm_compute. reflexivity. Qed.


Lemma window_nonneg_empty (w : list (Z * EventHash)) :
  Forall (fun ih => 0 <= ih.1) w ->
  snd <$> filter (fun ih => -1 < ih.1) w = [] -> w = [].
Proof.
  destruct w as [|[i h] w]; [done|]. intros Hf. inversion Hf; subst. simpl in *.
  rewrite filter_cons. rewrite decide_True; [discriminate|]. simpl. lia.
Qed.

(** C5 (amended): after a successful [SetEvent(e)], a second [SetEvent(e)]
    returns no error, leaves the participant-events index as it was (no
    second registration) and changes nothing but the event cache, where [e]
    is stored; when [e] was not cached and its creator had no retained
    events before the first call, [ParticipantEvents(e.creator, -1)] has
    length 1 afterwards. *)
Theorem SetEvent_idempotent (e : Event) (s s1 : InmemStore)
    (Hwf : wf s) (H1 : SetEvent e s = (s1, None)) :
  let '(s2, err) := SetEvent e s1 in
  err = None ∧
  participantEventsCache s2 = participantEventsCache s1 ∧
  s2 = set_eventCache (eventCache s2) s1 ∧
  LRU.find (ev_hash e) (LRU.items (eventCache s2)) = Some e ∧
  (LRU.find (ev_hash e) (LRU.items (eventCache s)) = None ->
   fst (ParticipantEvents (ev_creator e) (-1) s) = [] ->
   length (fst (ParticipantEvents (ev_creator e) (-1) s2)) = 1%nat).
Proof.
  pose proof (SetEvent_cached e s s1 Hwf H1) as Hc1.
  assert (Hwf1 : wf s1).
  { apply (wf_step example_root_hash (Trace.OpSetEvent e) s s1 Hwf). simpl. by rewrite H1. }
  pose proof (LRU_Get_cap (ev_hash e) (eventCache s1)) as Hcap1.
  pose proof (LRU_Get_find (ev_hash e) (eventCache s1)) as Hf1.
  destruct (LRU.Get (ev_hash e) (eventCache s1)) as [[v|] c] eqn:HG1; simpl in Hcap1, Hf1;
    [|congruence].
  rewrite (SetEvent_hit e s1 v c HG1).
  split; [done|]. split; [done|]. split; [by destruct s1|].
  split.
  { simpl. apply LRU_Add_find. rewrite Hcap1, (wf_eventCache s1 Hwf1). apply Hwf1. }
  intros Hnot Hempty.
  pose proof (LRU_Get_find (ev_hash e) (eventCache s)) as HGs. rewrite Hnot in HGs.
  destruct (LRU.Get (ev_hash e) (eventCache s)) as [r0 c0] eqn:HG; simpl in HGs; subst r0.
  rewrite (SetEvent_miss e s c0 HG) in H1.
  unfold ParticipantEvents, PEC.Get in Hempty |- *.
  unfold PEC.Set_ in H1.
  destruct (PEC.entries (participantEventsCache s) !! ev_creator e) as [en|] eqn:Hen;
    [|discriminate].
  simpl in Hempty.
  pose proof (window_nonneg_empty _ (wf_window s Hwf _ _ Hen) Hempty) as Hw.
  pose proof (wf_known s Hwf _ _ Hen) as Hk.
  pose proof (wf_pec_size s Hwf) as Hsz. pose proof (wf_cacheSize s Hwf) as Hcs.
  revert H1. destruct (decide (ev_index e = PEC.pe_known en + 1)) as [Hi|Hi]; intros H1.
  - simpl in H1. injection H1 as <-. simpl.
    rewrite lookup_insert_eq. simpl. rewrite Hw. simpl.
    rewrite decide_False by lia. rewrite filter_cons, decide_True by (simpl; lia).
    done.
  - revert H1. repeat case_decide; discriminate.
Qed.

Lemma SetEvent_idempotent_witness :
  let s := fresh_store one_peer in
  let e := example_event 1 "P1" 0 in
  let '(s2, err) := SetEvent e (fst (SetEvent e s)) in
  err = None ∧
  participantEventsCache s2 = participantEventsCache (fst (SetEvent e s)) ∧
  length (fst (ParticipantEvents "P1" (-1) s2)) = 1%nat.
Proof.
  intros s e.
  pose proof (SetEvent_idempotent e s (fst (SetEvent e s))
                (wf_NewInmemStore example_root_hash one_peer 100 s
                   ltac:(vm_compute; repeat constructor; set_solver)
                   ltac:(vm_compute; reflexivity))
                ltac:(vm_compute; reflexivity)) as T.
  destruct (SetEvent e (fst (SetEvent e s))) as [s2 err].
  destruct T as (He & Hp & _ & _ & Hl). split; [done|]. split; [done|].
  apply Hl; vm_compute; reflexivity.
Defined.

(** ** Roots, [LastEventFrom], [KnownEvents], [ParticipantEvent] *)

Section FoldRoots.
Context {A : Type} (f : Z -> A).

Lemma fold_insert_notin (ps : list (string * Z)) (m0 : gmap string A) (p : string) :
  p ∉ ps.*1 ->
  fold_left (fun m '(pk, id) => <[pk := f id]> m) ps m0 !! p = m0 !! p.
Proof.
  revert m0. induction ps as [|[k v] ps IH]; intros m0 Hp; simpl; [done|].
  rewrite IH.
  - rewrite lookup_insert_ne; [done|]. intros ->. apply Hp. simpl. set_solver.
  - intros Hin. apply Hp. simpl. set_solver.
Qed.

Lemma fold_insert_in (ps : list (string * Z)) (m0 : gmap string A) (p : string) (id : Z) :
  NoDup ps.*1 -> (p, id) ∈ ps ->
  fold_left (fun m '(pk, id) => <[pk := f id]> m) ps m0 !! p = Some (f id).
Proof.
  revert m0. induction ps as [|[k v] ps IH]; intros m0 Hnd Hin; simpl.
  - inversion Hin.
  - simpl in Hnd. apply NoDup_cons in Hnd as [Hk Hnd].
    apply elem_of_cons in Hin as [Heq | Hin].
    + inversion Heq; subst. rewrite fold_insert_notin; [|done]. apply lookup_insert_eq.
    + by apply IH.
Qed.
End FoldRoots.

Lemma NewInmemStore_root (bh : Z -> EventHash) (ps : list (string * Z)) (n : Z)
    (s : InmemStore) (p : string) (id : Z) :
  NoDup ps.*1 -> NewInmemStore bh ps n = Some s -> (p, id) ∈ ps ->
  rootsByParticipant s !! p = Some (NewBaseRoot bh id) ∧
  PEC.entries (participantEventsCache s) !! p = Some PEC.fresh_entry.
Proof.
  intros Hnd H Hin.
  destruct (NewInmemStore_fields _ _ _ _ H) as (_ & _ & _ & _ & _ & _ & _ & Hpec & Hroots & _).
  rewrite Hroots, Hpec. split; [by apply (fold_insert_in (NewBaseRoot bh))|].
  unfold PEC.New. simpl. apply elem_of_list_to_map_1.
  - rewrite <- list_fmap_compose.
    erewrite list_fmap_ext; [exact Hnd|]. intros _ [] _. done.
  - apply list_elem_of_fmap. eexists; split; [|exact Hin]. done.
Qed.

Lemma known_fold_notin (roots : gmap string Root) (ps : list (string * Z))
    (k0 : gmap Z Z) (pid : Z) :
  pid ∉ ps.*2 ->
  fold_left
    (fun known '(p, pid) =>
       if decide (default 0 (known !! pid) = -1) then
         match roots !! p with
         | Some root => <[pid := sp_index (SelfParent root)]> known
         | None => known
         end
       else known) ps k0 !! pid = k0 !! pid.
Proof.
  revert k0. induction ps as [|[q qid] ps IH]; intros k0 Hp; simpl; [done|].
  assert (Hq : pid <> qid) by (intros ->; apply Hp; simpl; set_solver).
  rewrite IH by (intros Hin; apply Hp; simpl; set_solver).
  repeat case_match; try done. by rewrite lookup_insert_ne.
Qed.

Lemma PEC_Known_lookup (ps : list (string * Z)) (c : PEC.t) (p : string) (pid : Z) :
  NoDup ps.*2 -> (p, pid) ∈ ps ->
  PEC.Known ps c !! pid =
    Some (match PEC.entries c !! p with Some en => PEC.pe_known en | None => -1 end).
Proof.
  intros Hnd Hin. unfold PEC.Known. apply elem_of_list_to_map_1.
  - rewrite <- list_fmap_compose. erewrite list_fmap_ext; [exact Hnd|]. intros _ [] _. done.
  - apply list_elem_of_fmap. eexists; split; [|exact Hin]. done.
Qed.





(** Counterexample to C7 as stated: in [rootless_store_event] the peer
    "P2" has no root but an event at index 0, and [ParticipantEvent("P2",
    0)] returns it without error (no no-root error); in [rootless_store]
    "P9" is not a peer but holds a root, and [ParticipantEvent("P9", 3)]
    returns its root's self-parent hash. *)
Lemma ParticipantEvent_rootless_counterexample :
  rootsByParticipant rootless_store_event !! "P2" = None ∧
  ParticipantEvent "P2" 0 rootless_store_event = (5, None) ∧
  ParticipantEvent "P2" 1 rootless_store_event = (0, Some NoRoot) ∧
  ("P9" ∉ (participants rootless_store).*1) ∧
  ParticipantEvent "P9" 3 rootless_store = (55, None).
Proof.
  split; [vm_compute; reflexivity|]. split; [vm_compute; reflexivity|].
  split; [vm_compute; reflexivity|]. split; [vm_compute; set_solver|].
  vm_compute; reflexivity.
Qed.

(** C7 (amended): for every [p] that has a root and every index [i] that
    is not in [p]'s participant-events window, [ParticipantEvent(p, i)]
    falls back to the root: it returns the root's self-parent hash without
    error when [i] is the root's self-parent index, and an error
    otherwise.  For every [p] without a root, [ParticipantEvent(p, i)]
    returns the hash at index [i] of [p]'s window without error when it is
    there, and the no-root error otherwise; in particular, in a
    well-formed store, every [p] outside the peer set without a root gets
    [NoRoot].  On a freshly built store, [ParticipantEvent(p, -1)] is the
    hash of [p]'s base root. *)
Theorem ParticipantEvent_root_fallback :
  (∀ (s : InmemStore) (p : string) (i : Z) (r : Root),
     rootsByParticipant s !! p = Some r ->
     (∀ en, PEC.entries (participantEventsCache s) !! p = Some en ->
            PEC.find_index i (PEC.pe_window en) = None) ->
     (i = sp_index (SelfParent r) -> ParticipantEvent p i s = (sp_hash (SelfParent r), None)) ∧
     (i <> sp_index (SelfParent r) -> snd (ParticipantEvent p i s) <> None)) ∧
  (∀ (s : InmemStore) (p : string) (i : Z),
     rootsByParticipant s !! p = None ->
     ParticipantEvent p i s =
       match PEC.entries (participantEventsCache s) !! p with
       | Some en =>
           match PEC.find_index i (PEC.pe_window en) with
           | Some h => (h, None)
           | None => (0, Some NoRoot)
           end
       | None => (0, Some NoRoot)
       end) ∧
  (∀ (s : InmemStore) (p : string) (i : Z),
     wf s -> p ∉ (participants s).*1 -> rootsByParticipant s !! p = None ->
     ParticipantEvent p i s = (0, Some NoRoot)) ∧
  (∀ (bh : Z -> EventHash) (ps : list (string * Z)) (n : Z) (s : InmemStore)
     (p : string) (id : Z),
     NoDup ps.*1 -> NewInmemStore bh ps n = Some s -> (p, id) ∈ ps ->
     ParticipantEvent p (-1) s = (bh id, None)).
Proof.
  assert (Hfb : ∀ (s : InmemStore) (p : string) (i : Z) (r : Root),
     rootsByParticipant s !! p = Some r ->
     (∀ en, PEC.entries (participantEventsCache s) !! p = Some en ->
            PEC.find_index i (PEC.pe_window en) = None) ->
     (i = sp_index (SelfParent r) -> ParticipantEvent p i s = (sp_hash (SelfParent r), None)) ∧
     (i <> sp_index (SelfParent r) -> snd (ParticipantEvent p i s) <> None)).
  { intros s p i r Hr Hw. unfold ParticipantEvent.
    assert (Hitem : ∃ e, PEC.GetItem p i (participantEventsCache s) = (0, Some e)).
    { unfold PEC.GetItem.
      destruct (PEC.entries (participantEventsCache s) !! p) as [en|] eqn:He; [|by eexists].
      rewrite (Hw en eq_refl).
      destruct (PEC.pe_window en) as [|[lo h] w]; [by eexists|].
      case_decide; by eexists. }
    destruct Hitem as [e ->]. rewrite Hr. split.
    - intros ->. rewrite decide_True; done.
    - intros Hne. rewrite decide_False by congruence. done. }
  assert (Hnr : ∀ (s : InmemStore) (p : string) (i : Z),
     rootsByParticipant s !! p = None ->
     ParticipantEvent p i s =
       match PEC.entries (participantEventsCache s) !! p with
       | Some en =>
           match PEC.find_index i (PEC.pe_window en) with
           | Some h => (h, None)
           | None => (0, Some NoRoot)
           end
       | None => (0, Some NoRoot)
       end).
  { intros s p i Hr. unfold ParticipantEvent, PEC.GetItem.
    destruct (PEC.entries (participantEventsCache s) !! p) as [en|]; [|rewrite Hr; done].
    destruct (PEC.find_index i (PEC.pe_window en)); [done|].
    destruct (PEC.pe_window en) as [|[lo h] w]; [rewrite Hr; done|].
    case_decide; rewrite Hr; done. }
  split; [exact Hfb|]. split; [exact Hnr|]. split.
  - intros s p i Hwf Hp Hr. rewrite (Hnr s p i Hr).
    destruct (PEC.entries (participantEventsCache s) !! p) as [en|] eqn:He; [|done].
    exfalso. apply Hp. eapply wf_pec_dom; [exact Hwf|rewrite He; eexists; reflexivity].
  - intros bh ps n s p id Hnd Hs Hin.
    destruct (NewInmemStore_root bh ps n s p id Hnd Hs Hin) as [Hr Hpec].
    destruct (Hfb s p (-1) (NewBaseRoot bh id) Hr) as [H _].
    + intros en Hen. rewrite Hpec in Hen. injection Hen as <-. done.
    + apply H. done.
Qed.

Lemma ParticipantEvent_root_fallback_witness :
  ParticipantEvent "P1" (-1) (fresh_store one_peer) = (example_root_hash 1, None) ∧
  snd (ParticipantEvent "P1" 3 (fresh_store one_peer)) <> None ∧
  ParticipantEvent "P2" 0 rootless_store_event = (5, None) ∧
  ParticipantEvent "P9" 0 (fresh_store one_peer) = (0, Some NoRoot).
Proof.
  destruct ParticipantEvent_root_fallback as (HA & HN & HB & HC).
  split; [apply (HC example_root_hash one_peer 100 (fresh_store one_peer) "P1" 1);
          [vm_compute; repeat constructor; set_solver|vm_compute; reflexivity|vm_compute; left]|].
  split.
  - destruct (HA (fresh_store one_peer) "P1" 3 (NewBaseRoot example_root_hash 1)
                ltac:(vm_compute; reflexivity)
                ltac:(vm_compute; intros en Hen; injection Hen as <-; reflexivity)) as [_ H].
    apply H. vm_compute. discriminate.
  - split.
    + rewrite (HN rootless_store_event "P2" 0 ltac:(vm_compute; reflexivity)).
      vm_compute. reflexivity.
    + apply HB.
      * apply (wf_NewInmemStore example_root_hash one_peer 100);
          [vm_compute; repeat constructor; set_solver|vm_compute; reflexivity].
      * vm_compute. set_solver.
      * vm_compute. reflexivity.
Defined.

(** ** The consensus-event counter over sequences of calls *)

Lemma wrap64_range (z : Z) : int64_min <= wrap64 z <= int64_max.
Proof.
  unfold wrap64, int64_min, int64_max.
  pose proof (Z.mod_pos_bound (z + 2 ^ 63) (2 ^ 64) ltac:(lia)). lia.
Qed.

Lemma wrap64_id (z : Z) : int64_min <= z <= int64_max -> wrap64 z = z.
Proof.
  unfold wrap64, int64_min, int64_max. intros Hz.
  rewrite Z.mod_small; lia.
Qed.

Lemma wrap64_add_l (a b : Z) : wrap64 (wrap64 a + b) = wrap64 (a + b).
Proof.
  unfold wrap64.
  replace ((a + 2 ^ 63) mod 2 ^ 64 - 2 ^ 63 + b + 2 ^ 63) with ((a + 2 ^ 63) mod 2 ^ 64 + b) by lia.
  rewrite Z.add_mod_idemp_l by lia. f_equal. f_equal. lia.
Qed.

Lemma step_tot (bh : Z -> EventHash) (o : Trace.op) (s : InmemStore) :
  Trace.is_reset o = false ->
  ∃ s', Trace.step bh o s = Some s' ∧
        totConsensusEvents s' =
          if Trace.is_add o then wrap64 (totConsensusEvents s + 1) else totConsensusEvents s.
Proof.
  intros Hr. destruct o; simpl in Hr |- *; try discriminate; eexists; split; try reflexivity;
    unfold SetEvent, GetEventBlock, addParticpantEvent, AddConsensusEvent, SetRoundCreated,
      SetRoundReceived, SetBlock, SetFrame, GetBlock, GetFrame, GetRoundCreated, GetRoundReceived,
      RoundClothos, RoundEvents, AddPeer, OnNewPeer, RootsBySelfParent, GetRoundCreated;
    simpl;
    repeat match goal with
    | |- context [LRU.Get ?k ?c] => destruct (LRU.Get k c) as [[?|] ?]; simpl
    | |- context [RollingIndex.Set_ ?a ?b ?c] => destruct (RollingIndex.Set_ a b c); simpl
    | |- context [PEC.Set_ ?a ?b ?c ?d] => destruct (PEC.Set_ a b c d) as [? [?|]]; simpl
    | |- context [decide ?P] => destruct (decide P); simpl
    | |- context [rootsBySelfParent ?t] => destruct (rootsBySelfParent t); simpl
    end; done.
Qed.

Lemma run_tot (bh : Z -> EventHash) (ops : list Trace.op) (s : InmemStore) :
  Forall (fun o => Trace.is_reset o = false) ops ->
  int64_min <= totConsensusEvents s <= int64_max ->
  ∃ s', Trace.run bh s ops = Some s' ∧
        totConsensusEvents s' = wrap64 (totConsensusEvents s + Z.of_nat (Trace.count_adds ops)).
Proof.
  revert s. induction ops as [|o ops IH]; intros s Hno Hr.
  - exists s. split; [done|]. unfold Trace.count_adds. simpl.
    rewrite Z.add_0_r, wrap64_id; done.
  - apply Forall_cons in Hno as [Ho Hno].
    destruct (step_tot bh o s Ho) as (s1 & Hs1 & Ht1).
    assert (Hr1 : int64_min <= totConsensusEvents s1 <= int64_max).
    { rewrite Ht1. destruct (Trace.is_add o); [apply wrap64_range|done]. }
    destruct (IH s1 Hno Hr1) as (s2 & Hrun & Ht2).
    exists s2. split; [simpl; rewrite Hs1; exact Hrun|].
    rewrite Ht2, Ht1. unfold Trace.count_adds. rewrite filter_cons.
    destruct (Trace.is_add o); simpl.
    + rewrite wrap64_add_l. f_equal. lia.
    + done.
Qed.

Lemma count_adds_repeat (e : Event) (n : nat) :
  Trace.count_adds (repeat (Trace.OpAddConsensusEvent e) n) = n.
Proof.
  unfold Trace.count_adds. induction n as [|n IH]; [done|]. simpl. by rewrite IH.
Qed.

Lemma Forall_repeat_add (e : Event) (n : nat) :
  Forall (fun o => Trace.is_reset o = false) (repeat (Trace.OpAddConsensusEvent e) n).
Proof. induction n as [|n IH]; simpl; constructor; done. Qed.

(** [2^63 - 1] calls of [AddConsensusEvent] on a fresh store bring the
    counter to the largest int64. *)
Lemma reach_int64_max (e : Event) :
  ∃ s1, Trace.run example_root_hash (fresh_store one_peer)
          (repeat (Trace.OpAddConsensusEvent e) (Z.to_nat int64_max)) = Some s1 ∧
        ConsensusEventsCount s1 = int64_max.
Proof.
  assert (H0 : totConsensusEvents (fresh_store one_peer) = 0) by (vm_compute; reflexivity).
  destruct (run_tot example_root_hash (repeat (Trace.OpAddConsensusEvent e) (Z.to_nat int64_max))
              (fresh_store one_peer) (Forall_repeat_add e _))
    as (s1 & Hrun & Ht).
  { rewrite H0. unfold int64_min, int64_max. lia. }
  exists s1. split; [exact Hrun|]. unfold ConsensusEventsCount.
  rewrite Ht, H0, count_adds_repeat, Z2Nat.id by (unfold int64_max; lia).
  apply wrap64_id. unfold int64_min, int64_max. lia.
Qed.

Lemma AddConsensusEvent_tot (e : Event) (s : InmemStore) :
  totConsensusEvents (fst (AddConsensusEvent e s)) = wrap64 (totConsensusEvents s + 1).
Proof.
  unfold AddConsensusEvent. destruct (RollingIndex.Set_ _ _ _). done.
Qed.




(** C4 (counterexample): on a store whose counter holds [2^63 - 1],
    [AddConsensusEvent] does not increment it by one: it wraps to
    [-2^63]. *)
Lemma AddConsensusEvent_count_wraps :
  let e := example_event 1 "P1" 0 in
  ∃ s1, Trace.run example_root_hash (fresh_store one_peer)
          (repeat (Trace.OpAddConsensusEvent e) (Z.to_nat int64_max)) = Some s1 ∧
        ConsensusEventsCount s1 = int64_max ∧
        ConsensusEventsCount (fst (AddConsensusEvent e s1)) = int64_min ∧
        ConsensusEventsCount (fst (AddConsensusEvent e s1)) <> ConsensusEventsCount s1 + 1.
Proof.
  intros e. destruct (reach_int64_max e) as (s1 & Hrun & Hc).
  exists s1. unfold ConsensusEventsCount in *. rewrite AddConsensusEvent_tot, Hc.
  split; [exact Hrun|]. split; [reflexivity|].
  unfold wrap64, int64_max, int64_min. split; [reflexivity|].
  intros H. vm_compute in H. discriminate H.
Qed.

(** C4 (amended): [AddConsensusEvent(e)] returns no error, sets the count
    to the int64 wrap of the previous count plus one (the previous count
    plus one when that is at most [2^63 - 1]), records [e]'s hash as the
    last consensus event of [e]'s creator, so that
    [LastConsensusEventFrom(e.creator)] then returns [e]'s hash with
    [isRoot = false] and no error; and when the rolling index's position
    counter agrees with the count, [e]'s hash is appended to the rolling
    index at that position (its window becomes the last [size] entries of
    the old window followed by the hash). *)
Theorem AddConsensusEvent_spec (e : Event) (s : InmemStore) :
  let s' := fst (AddConsensusEvent e s) in
  snd (AddConsensusEvent e s) = None ∧
  ConsensusEventsCount s' = wrap64 (ConsensusEventsCount s + 1) ∧
  (int64_min <= ConsensusEventsCount s < int64_max ->
   ConsensusEventsCount s' = ConsensusEventsCount s + 1) ∧
  lastConsensusEvents s' !! ev_creator e = Some (ev_hash e) ∧
  LastConsensusEventFrom (ev_creator e) s' = (ev_hash e, false, None) ∧
  (RollingIndex.count (consensusCache s) = totConsensusEvents s ->
   ConsensusEvents s' =
     RollingIndex.lastn (RollingIndex.size (consensusCache s)) (ConsensusEvents s ++ [ev_hash e]) ∧
   RollingIndex.count (consensusCache s') = totConsensusEvents s + 1).
Proof.
  intros s'. subst s'. unfold ConsensusEventsCount.
  rewrite AddConsensusEvent_tot.
  assert (Hl : lastConsensusEvents (fst (AddConsensusEvent e s)) !! ev_creator e = Some (ev_hash e)).
  { unfold AddConsensusEvent. destruct (RollingIndex.Set_ _ _ _). simpl. apply lookup_insert_eq. }
  split; [unfold AddConsensusEvent; destruct (RollingIndex.Set_ _ _ _); done|].
  split; [done|]. split; [intros Hr; apply wrap64_id; unfold int64_min, int64_max in *; lia|].
  split; [exact Hl|]. split; [unfold LastConsensusEventFrom; rewrite Hl; done|].
  intros Hc. unfold AddConsensusEvent, ConsensusEvents, RollingIndex.Set_.
  rewrite decide_True by done. simpl. split; [done|lia].
Qed.

Lemma AddConsensusEvent_spec_witness :
  ConsensusEventsCount (fst (AddConsensusEvent (example_event 1 "P1" 0) (fresh_store one_peer))) = 1 ∧
  LastConsensusEventFrom "P1" (fst (AddConsensusEvent (example_event 1 "P1" 0) (fresh_store one_peer)))
    = (1, false, None) ∧
  ConsensusEvents (fst (AddConsensusEvent (example_event 1 "P1" 0) (fresh_store one_peer))) = [1].
Proof.
  destruct (AddConsensusEvent_spec (example_event 1 "P1" 0) (fresh_store one_peer))
    as (_ & _ & H3 & _ & H5 & H6).
  split; [rewrite H3 by (split; vm_compute; congruence); vm_compute; reflexivity|].
  split; [exact H5|].
  destruct H6 as [H6 _]; [vm_compute; reflexivity|].
  rewrite H6. vm_compute. reflexivity.
Defined.

(** * Invariants of reachable stores and further properties *)

(** Case analysis on the lookups, index updates and tests a call makes. *)
Ltac step_split :=
  simpl;
  repeat match goal with
  | |- context [LRU.Get ?k ?c] =>
      let Hg := fresh "Hg" in
      pose proof (LRU_Get_cap k c) as Hg;
      destruct (LRU.Get k c) as [[?|] ?]; simpl in Hg |- *
  | |- context [RollingIndex.Set_ ?a ?b ?c] => destruct (RollingIndex.Set_ a b c); simpl
  | |- context [PEC.Set_ ?a ?b ?c ?d] => destruct (PEC.Set_ a b c d) as [? [?|]]; simpl
  | |- context [decide ?P] => destruct (decide P); simpl
  | |- context [rootsBySelfParent ?t] => destruct (rootsBySelfParent t); simpl
  end.

(** The calls that only touch an LRU cache and the last round or block. *)
Lemma step_frame (bh : Z -> EventHash) (o : Trace.op) (s : InmemStore) :
  match o with
  | Trace.OpSetEvent _ | Trace.OpAddConsensusEvent _ | Trace.OpRootsBySelfParent
  | Trace.OpAddPeer _ _ | Trace.OpReset _ => False
  | _ => True
  end ->
  ∃ s', Trace.step bh o s = Some s' ∧
    cacheSize s' = cacheSize s ∧ participants s' = participants s ∧
    participantEventsCache s' = participantEventsCache s ∧
    rootsByParticipant s' = rootsByParticipant s ∧
    rootsBySelfParent s' = rootsBySelfParent s ∧
    consensusCache s' = consensusCache s ∧
    LRU.cap (eventCache s') = LRU.cap (eventCache s) ∧
    LRU.cap (roundCreatedCache s') = LRU.cap (roundCreatedCache s) ∧
    LRU.cap (roundReceivedCache s') = LRU.cap (roundReceivedCache s) ∧
    LRU.cap (blockCache s') = LRU.cap (blockCache s) ∧
    LRU.cap (frameCache s') = LRU.cap (frameCache s).
Proof.
  intros Ho. destruct o; simpl in Ho |- *; try contradiction; eexists; split; try reflexivity;
    unfold SetRoundCreated, SetRoundReceived, SetBlock, SetFrame, GetBlock, GetFrame,
      GetEventBlock, GetRoundCreated, GetRoundReceived, RoundClothos, RoundEvents, GetRoundCreated;
    step_split; rewrite ?LRU_Add_cap; repeat split; congruence.
Qed.


Lemma PEC_Set_wf (p : string) (h : EventHash) (i : Z) (c : PEC.t) :
  pec_wf c -> pec_wf (fst (PEC.Set_ p h i c)).
Proof.
  intros Hc. unfold pec_wf. rewrite PEC_Set_size.
  destruct (PEC_Set_entries p h i c) as [-> | (en & Hen & Hi & ->)]; [exact Hc|].
  intros q en'. rewrite lookup_insert_Some. intros [[_ <-] | [_ Hq]]; [|by apply (Hc q)].
  simpl. destruct (Hc p en Hen) as [Hlen Hle].
  assert (Hw : Forall (fun ih => ih.1 <= i) (PEC.pe_window en ++ [(i, h)])).
  { apply Forall_app. split; [|constructor; simpl; [lia|constructor]].
    eapply Forall_impl; [exact Hle|]. intros [j x]; simpl. lia. }
  assert (Hl : length (PEC.pe_window en ++ [(i, h)]) = S (length (PEC.pe_window en)))
    by (rewrite length_app; simpl; lia).
  revert Hw Hl. generalize (PEC.pe_window en ++ [(i, h)]) as w. intros w Hw Hl.
  case_decide as Hgt.
  - destruct w as [|y w]; simpl in *; [lia|]. split; [lia|]. by inversion Hw.
  - split; [lia|exact Hw].
Qed.

(** [SetEvent] changes the event cache and possibly the participant-events
    index, through [PEC.Set_], and nothing else. *)
Lemma SetEvent_fields (e : Event) (s : InmemStore) :
  let s' := fst (SetEvent e s) in
  s' = set_participantEventsCache (participantEventsCache s') (set_eventCache (eventCache s') s) ∧
  LRU.cap (eventCache s') = LRU.cap (eventCache s) ∧
  (participantEventsCache s' = participantEventsCache s ∨
   participantEventsCache s' =
     fst (PEC.Set_ (ev_creator e) (ev_hash e) (ev_index e) (participantEventsCache s))).
Proof.
  pose proof (LRU_Get_cap (ev_hash e) (eventCache s)) as Hcap.
  destruct (LRU.Get (ev_hash e) (eventCache s)) as [[v|] c] eqn:HG; simpl in Hcap.
  - rewrite (SetEvent_hit e s v c HG). simpl. split; [by destruct s|].
    rewrite LRU_Add_cap. split; [exact Hcap|by left].
  - rewrite (SetEvent_miss e s c HG).
    destruct (PEC.Set_ _ _ _ _) as [pec [err|]] eqn:HS; simpl.
    + split; [by destruct s|]. split; [exact Hcap|]. by right.
    + split; [by destruct s|]. rewrite LRU_Add_cap. split; [exact Hcap|]. by right.
Qed.

Lemma lastn_length (n : Z) (l : list EventHash) :
  0 <= n -> Z.of_nat (length (RollingIndex.lastn n l)) <= n.
Proof. intros Hn. unfold RollingIndex.lastn. rewrite length_drop. lia. Qed.

Lemma store_inv_step (bh : Z -> EventHash) (o : Trace.op) (s s' : InmemStore) :
  store_inv s -> Trace.step bh o s = Some s' -> store_inv s'.
Proof.
  intros (Hwf & Hpec & Hri & Hcc & Hcaps) Hs.
  pose proof (wf_step bh o s s' Hwf Hs) as Hwf'.
  destruct o;
    try (match goal with Hs : Trace.step _ ?o _ = _ |- _ =>
           destruct (step_frame bh o s I) as
           (s1 & Hs1 & Hc & _ & Hp & Hr & Hrb & Hcc' & He & Hrc & Hrr & Hb & Hf);
         rewrite Hs1 in Hs; injection Hs as Hs; subst s';
         split; [exact Hwf'|];
         unfold pec_wf, roots_index_ok, consensus_ok, caps_ok in *;
         rewrite Hc, Hp, Hr, Hrb, Hcc', He, Hrc, Hrr, Hb, Hf; done end).
  - (* SetEvent *)
    simpl in Hs. injection Hs as <-.
    destruct (SetEvent_fields e s) as (Hshape & He & Hp). rewrite Hshape.
    unfold caps_ok in Hcaps.
    split; [rewrite <- Hshape; exact Hwf'|]. split; [|split; [|split]]; simpl; try done.
    + destruct Hp as [-> | ->]; [done|]. by apply PEC_Set_wf.
    + unfold caps_ok. simpl. rewrite He. done.
  - (* AddConsensusEvent *)
    simpl in Hs. injection Hs as <-. split; [exact Hwf'|].
    unfold AddConsensusEvent in *. unfold consensus_ok, caps_ok, roots_index_ok in *.
    destruct (RollingIndex.Set_ (ev_hash e) _ _) as [ci err] eqn:HS. simpl.
    split; [done|]. split; [done|]. split; [|done].
    revert HS. unfold RollingIndex.Set_.
    destruct Hcc as [Hsz Hlen]. pose proof (wf_cacheSize s Hwf).
    repeat case_decide; intros HS; injection HS as <- <-; simpl; [|done|done].
    split; [done|]. rewrite Hsz. apply lastn_length. lia.
  - (* RootsBySelfParent *)
    simpl in Hs. injection Hs as <-. split; [exact Hwf'|].
    unfold RootsBySelfParent.
    destruct (rootsBySelfParent s) eqn:Hrb; simpl; [tauto|].
    split; [exact Hpec|]. split; [|split; [exact Hcc|exact Hcaps]].
    intros m Hm. by injection Hm as <-.
  - (* AddPeer *)
    simpl in Hs. injection Hs as <-. split; [exact Hwf'|].
    unfold AddPeer, OnNewPeer, RootsBySelfParent, pec_wf, roots_index_ok, consensus_ok, caps_ok in *.
    simpl. split; [|split; [|split]]; try done.
    + intros q en. rewrite lookup_union_Some_raw. intros [Hq | [_ Hq]].
      * rewrite <- (wf_pec_size s Hwf). by apply (Hpec q).
      * unfold PEC.New in Hq. simpl in Hq. apply elem_of_list_to_map_2 in Hq.
        apply list_elem_of_fmap in Hq as [[k v] [Heq _]]. inversion Heq; subst.
        simpl. split; [pose proof (wf_cacheSize s Hwf); lia|constructor].
    + intros m Hm. by injection Hm as <-.
  - (* Reset *)
    simpl in Hs. destruct (Reset roots s) as [[s1 err]|] eqn:HR; simpl in Hs; [|discriminate].
    injection Hs as <-. split; [exact Hwf'|].
    destruct (Reset_fields _ _ _ _ HR) as
      (_ & Hpos & Hc & _ & He & Hrc & Hrr & Hb & Hf & Hcc' & _ & Hp & Hr & Hrb & _).
    unfold pec_wf, roots_index_ok, consensus_ok, caps_ok in *.
    rewrite Hc, He, Hrc, Hrr, Hb, Hf, Hcc', Hp, Hr, Hrb. simpl.
    split; [|split; [|split]].
    + intros q en. unfold PEC.Reset. simpl. rewrite lookup_fmap.
      destruct (_ !! q) as [en0|] eqn:Hq; simpl; [|done].
      intros Heq. injection Heq as <-. simpl. split; [|constructor].
      rewrite (wf_pec_size s Hwf). lia.
    + intros m Hm. by injection Hm as <-.
    + split; [done|]. lia.
    + destruct Hcaps as (_ & _ & _ & ? & ?). done.
Qed.

Lemma store_inv_New (bh : Z -> EventHash) (ps : list (string * Z)) (n : Z) (s : InmemStore) :
  NoDup ps.*1 -> NewInmemStore bh ps n = Some s -> store_inv s.
Proof.
  intros Hnd H. split; [exact (wf_NewInmemStore bh ps n s Hnd H)|].
  revert H. unfold NewInmemStore, LRU.New. case_decide; [discriminate|].
  intros H'. injection H' as <-.
  unfold pec_wf, roots_index_ok, consensus_ok, caps_ok. simpl.
  split; [|split; [done|split; [split; [done|simpl; lia]|done]]].
  intros q en Hq. unfold PEC.New in Hq. simpl in Hq. apply elem_of_list_to_map_2 in Hq.
  apply list_elem_of_fmap in Hq as [[k v] [Heq _]]. inversion Heq; subst.
  simpl. split; [lia|constructor].
Qed.

Lemma store_inv_run (bh : Z -> EventHash) (ops : list Trace.op) (s s' : InmemStore) :
  store_inv s -> Trace.run bh s ops = Some s' -> store_inv s'.
Proof.
  revert s. induction ops as [|o ops IH]; simpl; intros s Hs H.
  - by injection H as <-.
  - destruct (Trace.step bh o s) as [s1|] eqn:Hs1; [|discriminate].
    apply (IH s1); [|done]. by apply (store_inv_step bh o s).
Qed.

Lemma store_inv_reachable (bh : Z -> EventHash) (ps : list (string * Z)) (n : Z)
    (ops : list Trace.op) (s0 s : InmemStore) :
  NoDup ps.*1 -> NewInmemStore bh ps n = Some s0 -> Trace.run bh s0 ops = Some s ->
  store_inv s.
Proof. intros Hnd H0 Hrun. eapply store_inv_run; [|exact Hrun]. by eapply store_inv_New. Qed.


Lemma LRU_Get_miss {K V} `{EqDecision K} (k : K) (c : LRU.cache K V) :
  LRU.find k (LRU.items c) = None -> LRU.Get k c = (None, c).
Proof. intros H. unfold LRU.Get. by rewrite H. Qed.

Lemma LRU_Get_hit {K V} `{EqDecision K} (k : K) (v : V) (c : LRU.cache K V) :
  LRU.find k (LRU.items c) = Some v -> fst (LRU.Get k c) = Some v ∧ LRU.cap (snd (LRU.Get k c)) = LRU.cap c.
Proof. intros H. unfold LRU.Get. by rewrite H. Qed.


(** Getting a key just added yields the added value. *)
Lemma LRU_Add_Get {K V} `{EqDecision K} (k : K) (v : V) (c : LRU.cache K V) :
  0 < LRU.cap c -> fst (LRU.Get k (LRU.Add k v c)) = Some v.
Proof. intros H. rewrite LRU_Get_find. by apply LRU_Add_find. Qed.

(** X1: [NewInmemStore] exits (through [os.Exit] when [lru.New] fails)
    exactly when the cache size is not positive. *)
Theorem NewInmemStore_exits_iff (bh : Z -> EventHash) (ps : list (string * Z)) (n : Z) :
  NewInmemStore bh ps n = None <-> n <= 0.
Proof.
  unfold NewInmemStore, LRU.New. case_decide as Hn; split; intros H; try done; lia.
Qed.



(** X4: [SetBlock(b)] on a block cache of positive capacity never fails;
    afterwards [GetBlock(b.Index())] returns [b], [LastBlockIndex()] is the
    maximum of its previous value and [b.Index()], and [LastRound()] is
    unchanged. *)
Theorem SetBlock_GetBlock (b : Block) (s : InmemStore) (Hcap : 0 < LRU.cap (blockCache s)) :
  snd (SetBlock b s) = None ∧
  fst (GetBlock (block_index b) (fst (SetBlock b s))) = (b, None) ∧
  LastBlockIndex (fst (SetBlock b s)) = Z.max (LastBlockIndex s) (block_index b) ∧
  LastRound (fst (SetBlock b s)) = LastRound s.
Proof.
  unfold SetBlock, GetBlock, LastBlockIndex, LastRound.
  pose proof (LRU_Get_cap (block_index b) (blockCache s)) as Hc.
  destruct (LRU.Get (block_index b) (blockCache s)) as [[v|] c] eqn:HG; simpl in Hc |- *;
    case_decide; simpl; unfold LRU.Get at 1; rewrite LRU_Add_find by lia; simpl;
    (split; [done|]); (split; [done|]); split; lia.
Qed.

(** X5: [SetFrame(f)] on a frame cache of positive capacity never fails;
    afterwards [GetFrame(f.Round)] returns [f], and neither
    [LastBlockIndex()] nor [LastRound()] changes. *)
Theorem SetFrame_GetFrame (f : Frame) (s : InmemStore) (Hcap : 0 < LRU.cap (frameCache s)) :
  snd (SetFrame f s) = None ∧
  fst (GetFrame (frame_round f) (fst (SetFrame f s))) = (f, None) ∧
  LastBlockIndex (fst (SetFrame f s)) = LastBlockIndex s ∧
  LastRound (fst (SetFrame f s)) = LastRound s.
Proof.
  unfold SetFrame, GetFrame, LastBlockIndex, LastRound.
  pose proof (LRU_Get_cap (frame_round f) (frameCache s)) as Hc.
  destruct (LRU.Get (frame_round f) (frameCache s)) as [[v|] c] eqn:HG; simpl in Hc |- *;
    unfold LRU.Get at 1; rewrite LRU_Add_find by lia; done.
Qed.

(** X6: after [SetRoundCreated(r, round)] on a created-round cache of
    positive capacity, [GetRoundCreated(r)] returns [round] without error,
    [RoundClothos(r)] returns its Clotho list and [RoundEvents(r)] the
    number of its events. *)
Theorem SetRoundCreated_GetRoundCreated (r : Z) (round : RoundCreated) (s : InmemStore)
    (Hcap : 0 < LRU.cap (roundCreatedCache s)) :
  let s' := fst (SetRoundCreated r round s) in
  snd (SetRoundCreated r round s) = None ∧
  fst (GetRoundCreated r s') = (round, None) ∧
  fst (RoundClothos r s') = rc_clotho round ∧
  fst (RoundEvents r s') = Z.of_nat (length (rc_events round)).
Proof.
  unfold SetRoundCreated, RoundClothos, RoundEvents, GetRoundCreated.
  case_decide; simpl; unfold LRU.Get; rewrite LRU_Add_find by done; done.
Qed.

(** X7: after [SetRoundReceived(r, round)] on a received-round cache of
    positive capacity, [GetRoundReceived(r)] returns [round] without
    error. *)
Theorem SetRoundReceived_GetRoundReceived (r : Z) (round : RoundReceived) (s : InmemStore)
    (Hcap : 0 < LRU.cap (roundReceivedCache s)) :
  snd (SetRoundReceived r round s) = None ∧
  fst (GetRoundReceived r (fst (SetRoundReceived r round s))) = (round, None).
Proof.
  unfold SetRoundReceived, GetRoundReceived.
  case_decide; simpl; unfold LRU.Get; rewrite LRU_Add_find by done; done.
Qed.

(** X8: a getter of an LRU cache that misses returns the zero value with a
    [KeyNotFound] error ([NewRoundCreated] / [NewRoundReceived] for the round
    caches) and leaves the store as it was; [RoundClothos] and
    [RoundEvents] then return the empty list and 0. *)
Theorem getters_miss (s : InmemStore) :
  (∀ h, LRU.find h (LRU.items (eventCache s)) = None ->
     GetEventBlock h s = ((zeroEvent, Some KeyNotFound), s)) ∧
  (∀ r, LRU.find r (LRU.items (roundCreatedCache s)) = None ->
     GetRoundCreated r s = ((NewRoundCreated, Some KeyNotFound), s) ∧
     RoundClothos r s = ([], s) ∧ RoundEvents r s = (0, s)) ∧
  (∀ r, LRU.find r (LRU.items (roundReceivedCache s)) = None ->
     GetRoundReceived r s = ((NewRoundReceived, Some KeyNotFound), s)) ∧
  (∀ i, LRU.find i (LRU.items (blockCache s)) = None ->
     GetBlock i s = ((zeroBlock, Some KeyNotFound), s)) ∧
  (∀ i, LRU.find i (LRU.items (frameCache s)) = None ->
     GetFrame i s = ((zeroFrame, Some KeyNotFound), s)).
Proof.
  split; [|split; [|split; [|split]]]; intros k Hk;
    unfold GetEventBlock, GetRoundCreated, RoundClothos, RoundEvents, GetRoundReceived,
      GetBlock, GetFrame, GetRoundCreated;
    rewrite LRU_Get_miss by exact Hk; destruct s; done.
Qed.

(** X9: [SetEvent(e)] for an event whose hash is not cached fails, leaving
    the store exactly as it was, when [e]'s creator has no
    participant-events entry ([KeyNotFound]), when [e.Index()] is not above
    the creator's highest assigned index ([TooLow]), or when it skips past
    the next index ([SkippedIndex]). *)
Theorem SetEvent_errors (e : Event) (s : InmemStore)
    (Hmiss : LRU.find (ev_hash e) (LRU.items (eventCache s)) = None) :
  (PEC.entries (participantEventsCache s) !! ev_creator e = None ->
     SetEvent e s = (s, Some KeyNotFound)) ∧
  (∀ en, PEC.entries (participantEventsCache s) !! ev_creator e = Some en ->
     ev_index e <= PEC.pe_known en -> SetEvent e s = (s, Some TooLow)) ∧
  (∀ en, PEC.entries (participantEventsCache s) !! ev_creator e = Some en ->
     PEC.pe_known en + 1 < ev_index e -> SetEvent e s = (s, Some SkippedIndex)).
Proof.
  rewrite (SetEvent_miss e s (eventCache s) (LRU_Get_miss _ _ Hmiss)). unfold PEC.Set_.
  split; [|split].
  - intros ->. destruct s; done.
  - intros en -> Hle. rewrite decide_False by lia. rewrite decide_True by lia. destruct s; done.
  - intros en -> Hgt. rewrite decide_False by lia. rewrite decide_False by lia. destruct s; done.
Qed.

(** X10: [SetEvent(e)] for an event whose hash is already cached (with
    any payload) never fails, whatever [e]'s creator and index, leaves the
    participant-events index and every other field but the event cache as
    they were, and [GetEventBlock(e.Hash())] then returns the new [e]. *)
Theorem SetEvent_cached_hash (e v : Event) (s : InmemStore)
    (Hhit : LRU.find (ev_hash e) (LRU.items (eventCache s)) = Some v)
    (Hcap : 0 < LRU.cap (eventCache s)) :
  let s' := fst (SetEvent e s) in
  snd (SetEvent e s) = None ∧
  s' = set_eventCache (eventCache s') s ∧
  fst (GetEventBlock (ev_hash e) s') = (e, None).
Proof.
  destruct (LRU_Get_hit _ _ _ Hhit) as [Hv Hc].
  destruct (LRU.Get (ev_hash e) (eventCache s)) as [res c] eqn:HG. simpl in Hv, Hc. subst res.
  rewrite (SetEvent_hit e s v c HG). simpl. split; [done|]. split; [by destruct s|].
  unfold GetEventBlock. simpl. unfold LRU.Get at 1. rewrite LRU_Add_find by lia. done.
Qed.

Lemma find_index_app_last (l : list (Z * EventHash)) (i : Z) (h : EventHash) :
  Forall (fun ih => ih.1 < i) l -> PEC.find_index i (l ++ [(i, h)]) = Some h.
Proof.
  induction l as [|[j x] l IH]; intros Hl; simpl; [by rewrite decide_True|].
  inversion Hl as [|? ? Hj Hl']; subst. simpl in Hj. rewrite decide_False by lia. by apply IH.
Qed.

Lemma filter_app_last (l : list (Z * EventHash)) (k i : Z) (h : EventHash) :
  Forall (fun ih => ih.1 <= k) l -> k < i ->
  snd <$> filter (fun ih => k < ih.1) (l ++ [(i, h)]) = [h].
Proof.
  intros Hl Hi. rewrite filter_app.
  assert (Hnil : filter (fun ih : Z * EventHash => k < ih.1) l = []).
  { induction l as [|[j x] l IH]; [done|]. inversion Hl as [|? ? Hj Hl']; subst.
    rewrite filter_cons_False by (simpl in *; lia). by apply IH. }
  rewrite Hnil, filter_cons_True by (simpl; lia). done.
Qed.

(** The window of [p] after a successful [PEC.Set_] ends with the new
    entry, after entries at indices not above the previous highest one. *)
Lemma PEC_Set_new_window (p : string) (h : EventHash) (c : PEC.t) (en : PEC.entry) :
  pec_wf c -> 0 < PEC.size c -> PEC.entries c !! p = Some en ->
  let i := PEC.pe_known en + 1 in
  snd (PEC.Set_ p h i c) = None ∧
  ∃ l', PEC.entries (fst (PEC.Set_ p h i c)) !! p = Some (PEC.mkEntry (l' ++ [(i, h)]) i) ∧
        Forall (fun ih => ih.1 <= PEC.pe_known en) l' ∧
        (∀ q, q <> p -> PEC.entries (fst (PEC.Set_ p h i c)) !! q = PEC.entries c !! q).
Proof.
  intros Hc Hsz Hen i. destruct (Hc p en Hen) as [Hlen Hle].
  unfold PEC.Set_. rewrite Hen. rewrite decide_True by done. simpl. split; [done|].
  case_decide as Hgt.
  - destruct (PEC.pe_window en) as [|y l] eqn:Hw.
    + simpl in Hgt. lia.
    + exists l. simpl. rewrite lookup_insert_eq. split; [done|].
      split; [by inversion Hle|]. intros q Hq. by rewrite lookup_insert_ne.
  - exists (PEC.pe_window en). rewrite lookup_insert_eq. split; [done|]. split; [done|].
    intros q Hq. by rewrite lookup_insert_ne.
Qed.

Lemma known_fold_keep (roots : gmap string Root) (ps : list (string * Z))
    (k0 : gmap Z Z) (pid v : Z) :
  v <> -1 -> k0 !! pid = Some v ->
  fold_left
    (fun known '(p, pid) =>
       if decide (default 0 (known !! pid) = -1) then
         match roots !! p with
         | Some root => <[pid := sp_index (SelfParent root)]> known
         | None => known
         end
       else known) ps k0 !! pid = Some v.
Proof.
  intros Hv. revert k0. induction ps as [|[q qid] ps IH]; intros k0 Hk; simpl; [done|].
  apply IH. case_decide as Hd; [|done].
  destruct (roots !! q); [|done].
  destruct (decide (qid = pid)) as [->|Hne].
  - rewrite Hk in Hd. simpl in Hd. congruence.
  - by rewrite lookup_insert_ne.
Qed.

(** X11: in a store built by [NewInmemStore] and any calls after it,
    [SetEvent(e)] for an uncached event whose index is the next one of its
    creator succeeds; afterwards [GetEventBlock(e.Hash())] returns [e],
    [LastEventFrom(e.creator)] returns [e]'s hash with [isRoot = false],
    [ParticipantEvent(e.creator, e.Index())] returns [e]'s hash,
    [ParticipantEvents(e.creator, previous highest index)] is exactly
    [[e.Hash()]], and, when the participant ids are distinct,
    [KnownEvents()] maps the creator's id to [e.Index()]. *)
Theorem SetEvent_registers (bh : Z -> EventHash) (ps : list (string * Z)) (n : Z)
    (ops : list Trace.op) (s0 s : InmemStore)
    (Hnd : NoDup ps.*1) (H0 : NewInmemStore bh ps n = Some s0)
    (Hrun : Trace.run bh s0 ops = Some s)
    (e : Event) (en : PEC.entry)
    (Hmiss : LRU.find (ev_hash e) (LRU.items (eventCache s)) = None)
    (Hen : PEC.entries (participantEventsCache s) !! ev_creator e = Some en)
    (Hi : ev_index e = PEC.pe_known en + 1) :
  let s' := fst (SetEvent e s) in
  snd (SetEvent e s) = None ∧
  fst (GetEventBlock (ev_hash e) s') = (e, None) ∧
  LastEventFrom (ev_creator e) s' = (ev_hash e, false, None) ∧
  ParticipantEvent (ev_creator e) (ev_index e) s' = (ev_hash e, None) ∧
  ParticipantEvents (ev_creator e) (PEC.pe_known en) s' = ([ev_hash e], None) ∧
  (NoDup (participants s).*2 ->
   ∀ pid, (ev_creator e, pid) ∈ participants s -> KnownEvents s' !! pid = Some (ev_index e)).
Proof.
  destruct (store_inv_reachable bh ps n ops s0 s Hnd H0 Hrun) as (Hwf & Hpec & _).
  pose proof (wf_cacheSize s Hwf) as Hpos.
  pose proof (wf_eventCache s Hwf) as Hcap.
  pose proof (wf_known s Hwf _ _ Hen) as Hk.
  assert (Hsz : 0 < PEC.size (participantEventsCache s)) by (rewrite (wf_pec_size s Hwf); lia).
  destruct (PEC_Set_new_window (ev_creator e) (ev_hash e) _ en Hpec Hsz Hen)
    as (Herr & l' & Hnew & Hl' & Hother).
  rewrite <- Hi in Herr, Hnew, Hother.
  rewrite (SetEvent_miss e s (eventCache s) (LRU_Get_miss _ _ Hmiss)).
  destruct (PEC.Set_ (ev_creator e) (ev_hash e) (ev_index e) (participantEventsCache s))
    as [pec err] eqn:HS. simpl in Herr, Hnew, Hother. subst err. simpl.
  split; [done|]. split.
  { unfold GetEventBlock. simpl. unfold LRU.Get at 1. rewrite LRU_Add_find by lia. done. }
  split.
  { unfold LastEventFrom, PEC.GetLast. simpl. rewrite Hnew. simpl.
    rewrite last_snoc. done. }
  split.
  { unfold ParticipantEvent, PEC.GetItem. simpl. rewrite Hnew. simpl.
    rewrite find_index_app_last; [done|].
    eapply Forall_impl; [exact Hl'|]. intros [j x]; simpl. lia. }
  split.
  { unfold ParticipantEvents, PEC.Get. simpl. rewrite Hnew. simpl.
    rewrite filter_app_last; [done|exact Hl'|lia]. }
  intros Hids pid Hin. unfold KnownEvents. simpl.
  apply known_fold_keep; [lia|].
  rewrite (PEC_Known_lookup _ _ (ev_creator e) pid Hids Hin), Hnew. done.
Qed.

(** X12: [Reset(roots)] never reports an error, and afterwards the store
    knows no event and no round: every [GetEventBlock], [GetRoundCreated]
    and [GetRoundReceived] reports [KeyNotFound]; [GetRoot] answers from
    [roots]; [ParticipantEvents] of a participant of the index is empty;
    and [LastEventFrom] and [ParticipantEvent] fall back on the new root
    of the participant ([NoRoot] without one). *)
Theorem Reset_forgets_events (roots : gmap string Root) (s s' : InmemStore) (err : error)
    (H : Reset roots s = Some (s', err)) :
  err = None ∧
  (∀ h, fst (GetEventBlock h s') = (zeroEvent, Some KeyNotFound)) ∧
  (∀ r, fst (GetRoundCreated r s') = (NewRoundCreated, Some KeyNotFound)) ∧
  (∀ r, fst (GetRoundReceived r s') = (NewRoundReceived, Some KeyNotFound)) ∧
  (∀ p, GetRoot p s' = match roots !! p with
                       | Some r => (Some r, None)
                       | None => (None, Some KeyNotFound)
                       end) ∧
  (∀ p skip, is_Some (PEC.entries (participantEventsCache s) !! p) ->
     ParticipantEvents p skip s' = ([], None)) ∧
  (∀ p, LastEventFrom p s' = match roots !! p with
                             | Some r => (sp_hash (SelfParent r), true, None)
                             | None => (0, false, Some NoRoot)
                             end) ∧
  (∀ p i, ParticipantEvent p i s' =
     match roots !! p with
     | Some r => if decide (sp_index (SelfParent r) = i) then (sp_hash (SelfParent r), None)
                 else (0, Some KeyNotFound)
     | None => (0, Some NoRoot)
     end).
Proof.
  destruct (Reset_fields _ _ _ _ H) as
    (Herr & _ & _ & _ & Hec & Hrc & Hrr & _ & _ & _ & _ & Hpec & Hroots & _).
  split; [exact Herr|].
  split; [intros h; unfold GetEventBlock; rewrite Hec; done|].
  split; [intros r; unfold GetRoundCreated; rewrite Hrc; done|].
  split; [intros r; unfold GetRoundReceived; rewrite Hrr; done|].
  split; [intros p; unfold GetRoot; rewrite Hroots; done|].
  assert (Hent : ∀ p, PEC.entries (participantEventsCache s') !! p =
            (fun en => PEC.mkEntry [] (PEC.pe_known en)) <$> PEC.entries (participantEventsCache s) !! p).
  { intros p. rewrite Hpec. unfold PEC.Reset. simpl. apply lookup_fmap. }
  split.
  { intros p skip [en Hen]. unfold ParticipantEvents, PEC.Get. rewrite Hent, Hen. done. }
  split.
  { intros p. unfold LastEventFrom, PEC.GetLast. rewrite Hent, Hroots.
    destruct (PEC.entries (participantEventsCache s) !! p); simpl;
      destruct (roots !! p); done. }
  intros p i. unfold ParticipantEvent, PEC.GetItem. rewrite Hent, Hroots.
  destruct (PEC.entries (participantEventsCache s) !! p); simpl; done.
Qed.




(** X14: in a store built by [NewInmemStore] and any calls after it, the
    lists returned by [ParticipantEvents] and [ConsensusEvents] never hold
    more than [cacheSize] hashes. *)
Theorem reachable_event_lists_bounded (bh : Z -> EventHash) (ps : list (string * Z)) (n : Z)
    (ops : list Trace.op) (s0 s : InmemStore)
    (Hnd : NoDup ps.*1) (H0 : NewInmemStore bh ps n = Some s0)
    (Hrun : Trace.run bh s0 ops = Some s) :
  (∀ p skip, Z.of_nat (length (fst (ParticipantEvents p skip s))) <= cacheSize s) ∧
  Z.of_nat (length (ConsensusEvents s)) <= cacheSize s.
Proof.
  destruct (store_inv_reachable bh ps n ops s0 s Hnd H0 Hrun) as (Hwf & Hpec & _ & [_ Hcc] & _).
  split; [|exact Hcc].
  intros p skip. unfold ParticipantEvents, PEC.Get.
  destruct (PEC.entries (participantEventsCache s) !! p) as [en|] eqn:Hen; simpl.
  - destruct (Hpec p en Hen) as [Hlen _]. rewrite (wf_pec_size s Hwf) in Hlen.
    rewrite length_fmap. pose proof (length_filter (fun ih : Z * EventHash => skip < ih.1)
      (PEC.pe_window en)). lia.
  - pose proof (wf_cacheSize s Hwf). lia.
Qed.

(** X15: in a store built by [NewInmemStore] and any calls after it,
    [RootsBySelfParent()] returns no error and the map built from the
    current roots: each entry maps a hash to a current root with that
    self-parent hash, and the self-parent hash of every current root
    ([GetRoot]) is a key of it. *)
Theorem reachable_RootsBySelfParent (bh : Z -> EventHash) (ps : list (string * Z)) (n : Z)
    (ops : list Trace.op) (s0 s : InmemStore)
    (Hnd : NoDup ps.*1) (H0 : NewInmemStore bh ps n = Some s0)
    (Hrun : Trace.run bh s0 ops = Some s) :
  let '((m, err), _) := RootsBySelfParent s in
  err = None ∧ m = build_roots_by_self_parent (rootsByParticipant s) ∧
  (∀ h r, m !! h = Some r -> sp_hash (SelfParent r) = h ∧ ∃ p, GetRoot p s = (Some r, None)) ∧
  (∀ p r, GetRoot p s = (Some r, None) -> is_Some (m !! sp_hash (SelfParent r))).
Proof.
  destruct (store_inv_reachable bh ps n ops s0 s Hnd H0 Hrun) as (_ & _ & Hri & _).
  assert (Hm : fst (fst (RootsBySelfParent s)) = build_roots_by_self_parent (rootsByParticipant s) ∧
               snd (fst (RootsBySelfParent s)) = None).
  { unfold RootsBySelfParent. destruct (rootsBySelfParent s) as [m|] eqn:E; [|done].
    split; [by apply Hri|done]. }
  destruct (RootsBySelfParent s) as [[m err] s'']. simpl in Hm. destruct Hm as [-> ->].
  destruct (build_roots_by_self_parent_spec (rootsByParticipant s)) as (H1 & H2 & _).
  split; [done|]. split; [done|]. split.
  - intros h r Hr. destruct (H1 h r Hr) as [Hh [p Hp]]. split; [done|].
    exists p. unfold GetRoot. rewrite Hp. done.
  - intros p r Hg. unfold GetRoot in Hg.
    destruct (rootsByParticipant s !! p) eqn:Hp; [|discriminate]. inversion Hg; subst.
    exact (H2 p r Hp).
Qed.

Lemma known_fold_dom (roots : gmap string Root) (ps : list (string * Z)) :
  ∀ (k0 : gmap Z Z), (∀ q qid, (q, qid) ∈ ps -> is_Some (k0 !! qid)) ->
  ∀ x, is_Some (fold_left
    (fun known '(p, pid) =>
       if decide (default 0 (known !! pid) = -1) then
         match roots !! p with
         | Some root => <[pid := sp_index (SelfParent root)]> known
         | None => known
         end
       else known) ps k0 !! x) <-> is_Some (k0 !! x).
Proof.
  induction ps as [|[q qid] ps IH]; intros k0 Hk x; simpl; [done|].
  assert (Hq : is_Some (k0 !! qid)) by (apply (Hk q); left).
  assert (Hstep : ∀ k1, (k1 = k0 ∨ ∃ v, k1 = <[qid := v]> k0) ->
            (∀ y, is_Some (k1 !! y) <-> is_Some (k0 !! y))).
  { intros k1 [->|[v ->]] y; [done|]. destruct (decide (qid = y)) as [->|Hne].
    - rewrite lookup_insert_eq. split; [done|]. intros _. by eexists.
    - by rewrite lookup_insert_ne. }
  match goal with |- context [fold_left ?f ps ?k1] =>
    assert (Hk1 : k1 = k0 ∨ ∃ v, k1 = <[qid := v]> k0)
      by (repeat case_match; eauto) end.
  rewrite IH.
  - by apply Hstep.
  - intros q' qid' Hin. apply Hstep; [exact Hk1|]. apply (Hk q'). by right.
Qed.

(** X16: [KnownEvents()] has an entry for exactly the ids of the peer
    set; and when these ids are distinct, the entry of participant [p]
    with id [pid] is the highest index assigned to [p] in the
    participant-events index, or, when that is -1 (nothing assigned, or
    [p] absent from the index), the self-parent index of [p]'s root
    (-1 again when [p] has no root). *)
Theorem KnownEvents_entries (s : InmemStore) :
  (∀ pid, is_Some (KnownEvents s !! pid) <-> pid ∈ (participants s).*2) ∧
  (NoDup (participants s).*2 -> ∀ p pid, (p, pid) ∈ participants s ->
     let k := match PEC.entries (participantEventsCache s) !! p with
              | Some en => PEC.pe_known en
              | None => -1
              end in
     KnownEvents s !! pid =
       Some (if decide (k = -1) then
               match rootsByParticipant s !! p with
               | Some r => sp_index (SelfParent r)
               | None => -1
               end
             else k)).
Proof.
  assert (Hdom : ∀ x, is_Some (PEC.Known (participants s) (participantEventsCache s) !! x) <->
                      x ∈ (participants s).*2).
  { intros x. unfold PEC.Known.
    assert (Hk : ((fun '(pk, id) => (id, match PEC.entries (participantEventsCache s) !! pk with
                     | Some en => PEC.pe_known en | None => -1 end)) <$> participants s).*1
                 = (participants s).*2).
    { rewrite <- list_fmap_compose. apply list_fmap_ext. intros _ [] _. done. }
    split.
    - intros [v Hv]. apply elem_of_list_to_map_2 in Hv. rewrite <- Hk.
      apply list_elem_of_fmap. eexists; split; [|exact Hv]. done.
    - intros Hx. destruct (list_to_map _ !! x) eqn:E; [by eexists|].
      apply not_elem_of_list_to_map_2 in E. rewrite Hk in E. done. }
  split.
  { intros pid. unfold KnownEvents. rewrite known_fold_dom; [apply Hdom|].
    intros q qid Hin. apply Hdom. apply list_elem_of_fmap. exists (q, qid). done. }
  intros Hnd p pid Hin k. unfold KnownEvents.
  pose proof (PEC_Known_lookup _ (participantEventsCache s) p pid Hnd Hin) as Hk.
  fold k in Hk. revert Hk.
  generalize (PEC.Known (participants s) (participantEventsCache s)) as k0. intros k0 Hk.
  apply list_elem_of_split in Hin as (l1 & l2 & Hsplit).
  rewrite Hsplit in Hnd |- *. rewrite fmap_app in Hnd. simpl in Hnd.
  apply NoDup_app in Hnd as (Hnd1 & Hdisj & Hnd2). apply NoDup_cons in Hnd2 as [Hl2 _].
  assert (Hl1 : pid ∉ l1.*2) by (intros Hin; apply (Hdisj pid Hin); set_solver).
  rewrite fold_left_app. simpl. rewrite (known_fold_notin _ l2 _ pid Hl2).
  rewrite (known_fold_notin _ l1 k0 pid Hl1), Hk. simpl.
  destruct (decide (k = -1)) as [Hd|Hd].
  - destruct (rootsByParticipant s !! p); [apply lookup_insert_eq|].
    rewrite (known_fold_notin _ l1 k0 pid Hl1), Hk. by rewrite Hd.
  - rewrite (known_fold_notin _ l1 k0 pid Hl1), Hk. done.
Qed.

(** ** Instances of the properties above on concrete stores *)



Lemma SetBlock_GetBlock_witness :
  let b := mkBlock 3 [] in let s := fresh_store one_peer in
  0 < LRU.cap (blockCache s) ∧
  snd (SetBlock b s) = None ∧
  fst (GetBlock (block_index b) (fst (SetBlock b s))) = (b, None) ∧
  LastBlockIndex (fst (SetBlock b s)) = Z.max (LastBlockIndex s) (block_index b) ∧
  LastRound (fst (SetBlock b s)) = LastRound s.
Proof.
  intros b s. assert (H : 0 < LRU.cap (blockCache s)) by (vm_compute; reflexivity).
  split; [exact H|]. exact (SetBlock_GetBlock b s H).
Defined.

Lemma SetFrame_GetFrame_witness :
  let f := mkFrame 4 [] in let s := fresh_store one_peer in
  0 < LRU.cap (frameCache s) ∧
  snd (SetFrame f s) = None ∧
  fst (GetFrame (frame_round f) (fst (SetFrame f s))) = (f, None) ∧
  LastBlockIndex (fst (SetFrame f s)) = LastBlockIndex s ∧
  LastRound (fst (SetFrame f s)) = LastRound s.
Proof.
  intros f s. assert (H : 0 < LRU.cap (frameCache s)) by (vm_compute; reflexivity).
  split; [exact H|]. exact (SetFrame_GetFrame f s H).
Defined.

Lemma SetRoundCreated_GetRoundCreated_witness :
  let s := fresh_store one_peer in
  0 < LRU.cap (roundCreatedCache s) ∧
  let s' := fst (SetRoundCreated 3 NewRoundCreated s) in
  snd (SetRoundCreated 3 NewRoundCreated s) = None ∧
  fst (GetRoundCreated 3 s') = (NewRoundCreated, None) ∧
  fst (RoundClothos 3 s') = rc_clotho NewRoundCreated ∧
  fst (RoundEvents 3 s') = Z.of_nat (length (rc_events NewRoundCreated)).
Proof.
  intros s. assert (H : 0 < LRU.cap (roundCreatedCache s)) by (vm_compute; reflexivity).
  split; [exact H|]. exact (SetRoundCreated_GetRoundCreated 3 NewRoundCreated s H).
Defined.

Lemma SetRoundReceived_GetRoundReceived_witness :
  let s := fresh_store one_peer in
  0 < LRU.cap (roundReceivedCache s) ∧
  snd (SetRoundReceived 3 NewRoundReceived s) = None ∧
  fst (GetRoundReceived 3 (fst (SetRoundReceived 3 NewRoundReceived s))) = (NewRoundReceived, None).
Proof.
  intros s. assert (H : 0 < LRU.cap (roundReceivedCache s)) by (vm_compute; reflexivity).
  split; [exact H|]. exact (SetRoundReceived_GetRoundReceived 3 NewRoundReceived s H).
Defined.

Lemma getters_miss_witness :
  let s := fresh_store one_peer in
  GetEventBlock 5 s = ((zeroEvent, Some KeyNotFound), s) ∧
  GetBlock 7 s = ((zeroBlock, Some KeyNotFound), s).
Proof.
  intros s. destruct (getters_miss s) as (He & _ & _ & Hb & _).
  split; [apply He | apply Hb]; vm_compute; reflexivity.
Defined.

Lemma SetEvent_errors_witness :
  let s := fst (SetEvent (example_event 1 "P1" 0) (fresh_store one_peer)) in
  let e := example_event 2 "P1" 0 in
  LRU.find (ev_hash e) (LRU.items (eventCache s)) = None ∧
  SetEvent e s = (s, Some TooLow).
Proof.
  intros s e. assert (H : LRU.find (ev_hash e) (LRU.items (eventCache s)) = None)
    by (vm_compute; reflexivity).
  split; [exact H|].
  destruct (SetEvent_errors e s H) as (_ & Hlow & _).
  apply (Hlow (PEC.mkEntry [(0, 1)] 0)); [vm_compute; reflexivity | simpl; lia].
Defined.

Lemma SetEvent_cached_hash_witness :
  let e := example_event 1 "P1" 0 in
  let s := fst (SetEvent e (fresh_store one_peer)) in
  LRU.find (ev_hash e) (LRU.items (eventCache s)) = Some e ∧
  let s' := fst (SetEvent e s) in
  snd (SetEvent e s) = None ∧
  s' = set_eventCache (eventCache s') s ∧
  fst (GetEventBlock (ev_hash e) s') = (e, None).
Proof.
  intros e s. assert (H : LRU.find (ev_hash e) (LRU.items (eventCache s)) = Some e)
    by (vm_compute; reflexivity).
  split; [exact H|]. apply (SetEvent_cached_hash e e s H). vm_compute; reflexivity.
Defined.

Lemma SetEvent_registers_witness :
  let ops := [Trace.OpSetEvent (example_event 1 "P1" 0)] in
  let s := default (fresh_store one_peer) (Trace.run example_root_hash (fresh_store one_peer) ops) in
  let e := example_event 2 "P1" 1 in
  let s' := fst (SetEvent e s) in
  snd (SetEvent e s) = None ∧
  fst (GetEventBlock (ev_hash e) s') = (e, None) ∧
  LastEventFrom (ev_creator e) s' = (ev_hash e, false, None) ∧
  ParticipantEvent (ev_creator e) (ev_index e) s' = (ev_hash e, None) ∧
  ParticipantEvents (ev_creator e) 0 s' = ([ev_hash e], None) ∧
  KnownEvents s' !! 1 = Some 1.
Proof.
  intros ops s e.
  destruct (SetEvent_registers example_root_hash one_peer 100 ops (fresh_store one_peer) s
              ltac:(vm_compute; repeat constructor; set_solver) ltac:(vm_compute; reflexivity)
              ltac:(vm_compute; reflexivity) e (PEC.mkEntry [(0, 1)] 0)
              ltac:(vm_compute; reflexivity) ltac:(vm_compute; reflexivity)
              ltac:(vm_compute; reflexivity)) as (H1 & H2 & H3 & H4 & H5 & H6).
  split; [exact H1|]. split; [exact H2|]. split; [exact H3|]. split; [exact H4|].
  split; [exact H5|].
  apply (H6 ltac:(vm_compute; repeat constructor; set_solver) 1). vm_compute. left.
Defined.

Lemma Reset_forgets_events_witness :
  match Reset shared_roots (fresh_store two_peers) with
  | Some (s', err) =>
      err = None ∧
      (∀ h, fst (GetEventBlock h s') = (zeroEvent, Some KeyNotFound)) ∧
      (∀ r, fst (GetRoundCreated r s') = (NewRoundCreated, Some KeyNotFound)) ∧
      (∀ r, fst (GetRoundReceived r s') = (NewRoundReceived, Some KeyNotFound)) ∧
      (∀ p, GetRoot p s' = match shared_roots !! p with
                           | Some r => (Some r, None)
                           | None => (None, Some KeyNotFound)
                           end) ∧
      (∀ p skip, is_Some (PEC.entries (participantEventsCache (fresh_store two_peers)) !! p) ->
         ParticipantEvents p skip s' = ([], None)) ∧
      (∀ p, LastEventFrom p s' = match shared_roots !! p with
                                 | Some r => (sp_hash (SelfParent r), true, None)
                                 | None => (0, false, Some NoRoot)
                                 end) ∧
      (∀ p i, ParticipantEvent p i s' =
         match shared_roots !! p with
         | Some r => if decide (sp_index (SelfParent r) = i) then (sp_hash (SelfParent r), None)
                     else (0, Some KeyNotFound)
         | None => (0, Some NoRoot)
         end)
  | None => False
  end.
Proof.
  pose proof (Reset_forgets_events shared_roots (fresh_store two_peers)) as T.
  destruct (Reset shared_roots (fresh_store two_peers)) as [[s' err]|] eqn:H;
    [|vm_compute in H; discriminate].
  exact (T s' err eq_refl).
Defined.

Lemma reachable_event_lists_bounded_witness :
  let ops := [Trace.OpSetEvent (example_event 1 "P1" 0);
              Trace.OpAddConsensusEvent (example_event 1 "P1" 0)] in
  let s := default (fresh_store one_peer) (Trace.run example_root_hash (fresh_store one_peer) ops) in
  (∀ p skip, Z.of_nat (length (fst (ParticipantEvents p skip s))) <= cacheSize s) ∧
  Z.of_nat (length (ConsensusEvents s)) <= cacheSize s.
Proof.
  intros ops s.
  exact (reachable_event_lists_bounded example_root_hash one_peer 100 ops (fresh_store one_peer) s
           ltac:(vm_compute; repeat constructor; set_solver) ltac:(vm_compute; reflexivity)
           ltac:(vm_compute; reflexivity)).
Defined.

Lemma reachable_RootsBySelfParent_witness :
  let ops := [Trace.OpReset shared_roots; Trace.OpAddPeer "P3" 3] in
  let s := default (fresh_store two_peers) (Trace.run example_root_hash (fresh_store two_peers) ops) in
  let '((m, err), _) := RootsBySelfParent s in
  err = None ∧ m = build_roots_by_self_parent (rootsByParticipant s) ∧
  (∀ h r, m !! h = Some r -> sp_hash (SelfParent r) = h ∧ ∃ p, GetRoot p s = (Some r, None)) ∧
  (∀ p r, GetRoot p s = (Some r, None) -> is_Some (m !! sp_hash (SelfParent r))).
Proof.
  intros ops s.
  exact (reachable_RootsBySelfParent example_root_hash two_peers 100 ops (fresh_store two_peers) s
           ltac:(vm_compute; repeat constructor; set_solver) ltac:(vm_compute; reflexivity)
           ltac:(vm_compute; reflexivity)).
Defined.

Lemma KnownEvents_entries_witness :
  let s := fst (SetEvent (example_event 1 "P1" 0) (fresh_store two_peers)) in
  KnownEvents s !! 1 = Some 0 ∧ KnownEvents s !! 2 = Some (-1).
Proof.
  intros s. destruct (KnownEvents_entries s) as [_ Hv].
  assert (Hnd : NoDup (participants s).*2) by (vm_compute; repeat constructor; set_solver).
  split.
  - rewrite (Hv Hnd "P1" 1 ltac:(vm_compute; left)). vm_compute. reflexivity.
  - rewrite (Hv Hnd "P2" 2 ltac:(vm_compute; right; left)). vm_compute. reflexivity.
Defined.
